(** * pr-sweeper: the sweep decision-and-orchestration engine of [sweep_PR.py]

    A shallow embedding of [cherryPickPr] (src/sweep_PR.py, lines 153-512)
    and of the functions around it ([executeCommandWithRetry],
    [getSweepTargetBranchRules], [getListOfMergeCommits], [main]):
    the forge and the git executable are an oracle [World] answering each
    call from the history of calls made so far; the Python function is a
    computation in a small monad that threads that history and carries
    early [return]s and raised exceptions.

    Python [str] values are Rocq strings (one character per code point
    below 256); Python [set]s are [gset]s, iterated in the order of
    [elements]; the rule table (a [dict]) is an association list in
    insertion order. *)

From Stdlib Require Import String Ascii ZArith.
From stdpp Require Import gmap strings list sorting pretty.

Local Open Scope string_scope.
Local Open Scope list_scope.
Local Open Scope Z_scope.

(** ** Python strings *)

Module PyStr.

Definition chr (n : nat) : string := String (ascii_of_nat n) EmptyString.

Definition nl : string := chr 10.
Definition dquote : string := chr 34.
Definition squote : string := chr 39.

(** [s.startswith(p)]; also [re.match("^" + p, s)] for a literal [p]. *)
Definition startswith (p s : string) : bool := String.prefix p s.

(** [s.split(sep)] for a one-character separator. *)
Fixpoint split (sep : ascii) (s : string) : list string :=
  match s with
  | EmptyString => [EmptyString]
  | String c s' =>
      if Ascii.eqb c sep then EmptyString :: split sep s'
      else match split sep s' with
           | [] => [String c EmptyString]
           | w :: ws => String c w :: ws
           end
  end.

(** [sep.join(l)] *)
Fixpoint join (sep : string) (l : list string) : string :=
  match l with
  | [] => EmptyString
  | [x] => x
  | x :: l' => x +:+ sep +:+ join sep l'
  end.

Fixpoint replace_from (old new : string) (skip : nat) (s : string) : string :=
  match s with
  | EmptyString => EmptyString
  | String c s' =>
      match skip with
      | S k => replace_from old new k s'
      | O =>
          if String.prefix old s
          then new +:+ replace_from old new (String.length old - 1) s'
          else String c (replace_from old new 0 s')
      end
  end.

(** [s.replace(old, new)] for a non-empty [old] (every use in the source
    has a non-empty literal there): leftmost, non-overlapping. *)
Definition replace (old new s : string) : string := replace_from old new 0 s.

Fixpoint rfind_slash (s : string) : option nat :=
  match s with
  | EmptyString => None
  | String c s' =>
      match rfind_slash s' with
      | Some i => Some (S i)
      | None => if Ascii.eqb c "/" then Some 0%nat else None
      end
  end.

(** [os.path.basename(p)]: what follows the last slash. *)
Definition basename (p : string) : string :=
  match rfind_slash p with
  | Some i => String.substring (S i) (String.length p - S i) p
  | None => p
  end.

Fixpoint all_slashes (s : string) : bool :=
  match s with
  | EmptyString => true
  | String c s' => Ascii.eqb c "/" && all_slashes s'
  end.

Fixpoint rstrip_slash (s : string) : string :=
  match s with
  | EmptyString => EmptyString
  | String c s' =>
      match rstrip_slash s' with
      | EmptyString => if Ascii.eqb c "/" then EmptyString else String c EmptyString
      | r => String c r
      end
  end.

(** [os.path.dirname(p)] (posixpath): the head up to the last slash,
    trailing slashes stripped unless the head is slashes only. *)
Definition dirname (p : string) : string :=
  match rfind_slash p with
  | Some i =>
      let head := String.substring 0 (S i) p in
      if all_slashes head then head else rstrip_slash head
  | None => EmptyString
  end.

Definition is_digit (c : ascii) : bool :=
  let n := nat_of_ascii c in (48 <=? n)%nat && (n <=? 57)%nat.

(** [re.ASCII] word characters and the other characters [shlex.quote]
    leaves alone: the complement of [[^\w@%+=:,./-]]. *)
Definition shlex_safe (c : ascii) : bool :=
  let n := nat_of_ascii c in
  is_digit c
  || ((65 <=? n)%nat && (n <=? 90)%nat)
  || ((97 <=? n)%nat && (n <=? 122)%nat)
  || bool_decide (c ∈ ["_"; "@"; "%"; "+"; "="; ":"; ","; "."; "/"; "-"]%char).

Fixpoint all_chars (f : ascii → bool) (s : string) : bool :=
  match s with
  | EmptyString => true
  | String c s' => f c && all_chars f s'
  end.

(** [shlex.quote(s)] *)
Definition shlex_quote (s : string) : string :=
  match s with
  | EmptyString => squote +:+ squote
  | _ =>
      if all_chars shlex_safe s then s
      else squote
             +:+ replace squote (squote +:+ dquote +:+ squote +:+ dquote +:+ squote) s
             +:+ squote
  end.

(** [str(n)] for an [int]. *)
Definition str_of_int (n : Z) : string := pretty n.

Fixpoint take_digits (s : string) : string :=
  match s with
  | String c s' => if is_digit c then String c (take_digits s') else EmptyString
  | EmptyString => EmptyString
  end.

Fixpoint int_of_digits_from (acc : Z) (s : string) : Z :=
  match s with
  | EmptyString => acc
  | String c s' => int_of_digits_from (10 * acc + Z.of_nat (nat_of_ascii c - 48)) s'
  end.

(** [int(s)] for a run of decimal digits. *)
Definition int_of_digits (s : string) : Z := int_of_digits_from 0 s.

(** The text [s] contains [sub] literally. *)
Definition contains (s sub : string) : Prop :=
  ∃ before after, s = before +:+ sub +:+ after.

End PyStr.

(** ** The fixed patterns of the metadata extraction

    Each [re] call of lines 185-227 has a literal pattern; it is written
    out here as the string function that pattern denotes. *)

Module Extract.
Import PyStr.

Definition strip_prefix (p s : string) : option string :=
  if String.prefix p s
  then Some (String.substring (String.length p) (String.length s - String.length p) s)
  else None.

(** [re.search("Merge pull request #(\\d+)", out)], group 1. *)
Fixpoint search_pr_iid (out : string) : option string :=
  match out with
  | EmptyString => None
  | String _ out' =>
      match strip_prefix "Merge pull request #" out with
      | Some rest =>
          match take_digits rest with
          | EmptyString => search_pr_iid out'
          | digits => Some digits
          end
      | None => search_pr_iid out'
      end
  end.

(** Index of the last occurrence of [p] in [s]. *)
Fixpoint rindex (p s : string) : option nat :=
  match s with
  | EmptyString => None
  | String _ s' =>
      match rindex p s' with
      | Some j => Some (S j)
      | None => if String.prefix p s then Some 0%nat else None
      end
  end.

Definition BEGIN : string := "BEGINRELEASENOTES".
Definition END : string := "ENDRELEASENOTES".

(** [re.search(r"(BEGINRELEASENOTES(?:.|\s)+ENDRELEASENOTES)", body)]:
    [(?:.|\s)] takes any character, and the repetition is greedy, so the
    match runs from the first BEGIN marker to the last END marker that
    leaves a character between them. *)
Definition search_release_notes (body : string) : option string :=
  match String.index 0 BEGIN body with
  | Some i =>
      let from := (i + String.length BEGIN + 1)%nat in
      let rest := String.substring from (String.length body - from) body in
      match rindex END rest with
      | Some j =>
          Some (String.substring i (String.length BEGIN + 1 + j + String.length END) body)
      | None => None
      end
  | None => None
  end.

Fixpoint take_line (s : string) : string :=
  match s with
  | EmptyString => EmptyString
  | String c s' => if Ascii.eqb c (ascii_of_nat 10) then EmptyString else String c (take_line s')
  end.

Definition WATCHER : string := " as watcher".

(** Largest offset in [line] at which [" as watcher"] and one more
    character follow. *)
Fixpoint watcher_end (line : string) : option nat :=
  match line with
  | EmptyString => None
  | String _ line' =>
      match watcher_end line' with
      | Some k => Some (S k)
      | None =>
          if String.prefix WATCHER line && (String.length WATCHER <? String.length line)%nat
          then Some 0%nat else None
      end
  end.

(** [re.search(r"Adding original author @(.+) as watcher.", body)],
    group 1: [.] stops at a newline and the final [.] is unescaped. *)
Fixpoint search_original_author (body : string) : option string :=
  match body with
  | EmptyString => None
  | String _ body' =>
      match strip_prefix "Adding original author @" body with
      | Some rest =>
          match take_line rest with
          | String c line' =>
              match watcher_end line' with
              | Some k => Some (String c (String.substring 0 k line'))
              | None => search_original_author body'
              end
          | EmptyString => search_original_author body'
          end
      | None => search_original_author body'
      end
  end.

(** [\s] on [str] patterns, for code points below 256. *)
Definition is_space (c : ascii) : bool :=
  bool_decide (nat_of_ascii c ∈ [9; 10; 11; 12; 13; 28; 29; 30; 31; 32; 133; 160]%nat).

Definition one_line (s : string) : bool :=
  match s with
  | EmptyString => false
  | _ => all_chars (λ c, negb (Ascii.eqb c (ascii_of_nat 10))) s
  end.

(** [\s+(.+)] against the whole of [s]: the longest run of leading
    white space that leaves a non-empty rest without a newline. *)
Fixpoint title_group (s : string) : option string :=
  match s with
  | EmptyString => None
  | String c s' =>
      if is_space c
      then match title_group s' with
           | Some g => Some g
           | None => if one_line s' then Some s' else None
           end
      else None
  end.

Fixpoint after_bracket (s : string) : option (string * string) :=
  match s with
  | EmptyString => None
  | String c s' =>
      if Ascii.eqb c "]" then Some (EmptyString, s')
      else match after_bracket s' with
           | Some (tag, rest) => Some (String c tag, rest)
           | None => None
           end
  end.

(** [re.fullmatch(r"\[[^\]]+\]\s+(.+)", title)], group 1. *)
Definition fullmatch_title_prefix (title : string) : option string :=
  match title with
  | String "[" t =>
      match after_bracket t with
      | Some (String _ _, rest) => title_group rest
      | _ => None
      end
  | _ => None
  end.

(** Lines 224-227: drop a leading bracketed tag such as [[v7r2]]. *)
Definition canonical_title (title : string) : string :=
  match fullmatch_title_prefix title with
  | Some t => t
  | None => title
  end.

End Extract.

(** ** Values of the label loop *)

(** A Python [bytes] value, as [str.encode] returns it. *)
Record bytes := Bytes { bytes_chars : string }.

#[global] Instance bytes_eq_dec : EqDecision bytes.
Proof. solve_decision. Defined.

#[global] Instance bytes_countable : Countable bytes :=
  inj_countable' bytes_chars Bytes (λ b, match b with Bytes _ => eq_refl end).

Fixpoint map_chars (f : ascii → ascii) (s : string) : string :=
  match s with
  | EmptyString => EmptyString
  | String c s' => String (f c) (map_chars f s')
  end.

(** [s.encode("ascii", "replace")]: a character outside ASCII becomes [?]. *)
Definition encode_ascii_replace (s : string) : bytes :=
  Bytes (map_chars (λ c, if (nat_of_ascii c <? 128)%nat then c else "?"%char) s).

(** [t_excl == tbranch] at line 318, with [t_excl] a [bytes] (line 257) and
    [tbranch] a [str]: in Python 3 neither type's [__eq__] accepts the
    other, and [==] answers [False] whatever the contents. *)
Definition bytes_eq_str (t_excl : bytes) (tbranch : string) : bool := false.

(** ** The [re] module, for the patterns of the rule table

    The rule patterns are data, so the engine stays an interface:
    [re_compile] is [re.compile] ([None] when it raises [re.error]) and
    [pattern_match p s] tells whether [p.match(s)] is a match object. *)

Class Re := {
  pattern : Type;
  re_compile : string → option pattern;
  pattern_match : pattern → string → bool;
}.

(** ** Calls, events and the world *)

Inductive level := INFO | WARNING | CRITICAL.

(** The calls that leave the process. [CreateGitRef] and [Merge] go to the
    fork ([pr_repo]), the others to the project ([repo], [gh]) or to the
    pull request, issue or handle numbered in the call. *)
Inductive call :=
| GetCommit (sha : string)
| Git (cmd : string)
| GetPull (number : Z)
| GetUser (login : string)
| GetCommits (author : string)
| GetLabels (number : Z)
| GetFiles (number : Z)
| SetLabels (number : Z) (labels : gset string)
| AddToLabels (number : Z) (label : string)
| GetBranch (branch : string)
| CreateGitRef (ref sha : string)
| Merge (base head : string)
| CreatePull (title body head base : string)
| CreateIssue (title body assignee : string)
| CreateIssueComment (number : Z) (body : string).

(** What a run leaves behind: each call with its outcome ([true] when it
    succeeded; for [Git], exit status 0) and each message logged at INFO or
    above, as the format string and its arguments. Debug messages are not
    recorded. *)
Inductive event :=
| Called (c : call) (ok : bool)
| Logged (lvl : level) (fmt : string) (args : list string).

(** Newest event first. *)
Definition history := list event.

Inductive api (A : Type) :=
| ApiOk (a : A)
| ApiError (message : string).
Arguments ApiOk {A} a.
Arguments ApiError {A} message.

Record Pull := {
  pull_title : string;
  pull_body : option string;
  pull_user_login : string;
  pull_html_url : string;
}.

(** The forge and the git executable. Every answer may depend on all that
    happened before; [ApiError m] is a [GithubException] whose
    [data["message"]] is [m]. *)
Record World := {
  repo_get_commit : history → string → api string;
  run_git : history → string → Z * string * string;
  repo_get_pull : history → Z → api Pull;
  gh_get_user : history → string → api unit;
  repo_get_commits : history → string → api (list (string * string));
  pull_get_labels : history → Z → api (list string);
  pull_get_files : history → Z → api (list string);
  pull_set_labels : history → Z → gset string → api unit;
  add_to_labels : history → Z → string → api unit;
  repo_get_branch : history → string → api string;
  create_git_ref : history → string → string → api unit;
  repo_merge : history → string → string → api unit;
  repo_create_pull : history → string → string → string → string → api Z;
  repo_create_issue : history → string → string → string → api Z;
  create_issue_comment : history → Z → string → api unit;
  environ : string → option string;
}.

(** ** The monad of a Python function body *)

Inductive exn :=
| GithubException (message : string)
| ReError (pat : string)
| IndexError.

Inductive result (A : Type) :=
| Val (a : A)
| Returned
| Raised (e : exn).
Arguments Val {A} a.
Arguments Returned {A}.
Arguments Raised {A} e.

Definition M (A : Type) : Type := history → result A * history.

Definition ret {A} (a : A) : M A := λ h, (Val a, h).

Definition bind {A B} (m : M A) (k : A → M B) : M B :=
  λ h, match m h with
       | (Val a, h') => k a h'
       | (Returned, h') => (Returned, h')
       | (Raised e, h') => (Raised e, h')
       end.

Notation "'let*' x ':=' m 'in' k" := (bind m (λ x, k))
  (at level 10, x pattern, m at level 100, k at level 200).
Notation "m ';;;' k" := (bind m (λ _, k))
  (at level 100, k at level 200, right associativity).

(** [return] in the middle of the function. *)
Definition early_return {A} : M A := λ h, (Returned, h).

Definition raise {A} (e : exn) : M A := λ h, (Raised e, h).

Definition log (lvl : level) (fmt : string) (args : list string) : M unit :=
  λ h, (Val tt, Logged lvl fmt args :: h).

(** One call to the forge: the answer is read off the world at the present
    history and the call is recorded with its outcome. *)
Definition call_api {A} (c : call) (answer : history → api A) : M A :=
  λ h, match answer h with
       | ApiOk a => (Val a, Called c true :: h)
       | ApiError m => (Raised (GithubException m), Called c false :: h)
       end.

(** [try: body / except GithubException as e: handler / else: orelse] *)
Definition try_except_else {A B} (body : M A) (handler : string → M B) (orelse : A → M B) : M B :=
  λ h, match body h with
       | (Val a, h') => orelse a h'
       | (Returned, h') => (Returned, h')
       | (Raised (GithubException m), h') => handler m h'
       | (Raised e, h') => (Raised e, h')
       end.

(** [for x in l: s = body(x, s)] *)
Fixpoint for_each {A S} (l : list A) (body : A → S → M S) (s : S) : M S :=
  match l with
  | [] => ret s
  | x :: l' => let* s' := body x s in for_each l' body s'
  end.

(** The events a computation adds to the history [h]. *)
Definition run {A} (m : M A) (h : history) : result A * list event :=
  let '(r, h') := m h in (r, take (length h' - length h) h').

(** ** [cherryPickPr] *)

(** What lines 172-230 extract from the merge commit and its pull request. *)
Record ChangeRecord := {
  commit_sha : string;
  PR_IID : Z;
  html_url : string;
  release_notes : string;
  original_pr_author : string;
  pr_author : string;
  orig_pr_title : string;
  labels : gset string;
}.

(** [good_branches] and [failed_branches]; the latter holds the tuples
    [(tbranch, merge_commit, instructions)]. *)
Record Outcome := {
  good_branches : gset string;
  failed_branches : gset (string * string * string);
}.

Section CherryPickPr.
Import PyStr Extract.
Context `{Re} (w : World).
Variables (merge_commit source_branch : string).
Variable target_branch_rules : list (string * list string).
Variables (strategy project_name pr_project_name : string).
Variable dry_run : bool.

Definition git (cmd : string) : M (Z * string * string) :=
  λ h, let '(status, out, err) := run_git w h cmd in
       (Val (status, out, err), Called (Git cmd) (status =? 0) :: h).

(** *** Change metadata, lines 172-232 *)

Definition get_pull_handle : M (string * Z * Pull) :=
  let* commit :=
    try_except_else (call_api (GetCommit merge_commit) (λ h, repo_get_commit w h merge_commit))
      (λ message,
         log CRITICAL ("failed to get merge commit '%s' with" +:+ nl +:+ "%s") [merge_commit; message];;;
         early_return)
      ret in
  let* (_, out, _) := git ("git show " +:+ merge_commit) in
  match search_pr_iid out with
  | Some digits =>
      let iid := int_of_digits digits in
      try_except_else (call_api (GetPull iid) (λ h, repo_get_pull w h iid))
        (λ _,
           log CRITICAL "failed to retrieve GitHub pull request handle" [];;;
           early_return)
        (λ pr_handle, ret (commit, iid, pr_handle))
  | None =>
      log CRITICAL "failed to determine PR IID" [];;;
      early_return
  end.

Definition extract : M ChangeRecord :=
  let* (commit, iid, pr_handle) := get_pull_handle in
  let body := default EmptyString (pull_body pr_handle) in
  let notes := default EmptyString (search_release_notes body) in
  let author := default (pull_user_login pr_handle) (search_original_author body) in
  let* _ := call_api (GetUser author) (λ h, gh_get_user w h author) in
  let* commits := call_api (GetCommits author) (λ h, repo_get_commits w h author) in
  match commits with
  | [] => raise IndexError
  | (name, email) :: _ =>
      let* names := call_api (GetLabels iid) (λ h, pull_get_labels w h iid) in
      ret {| commit_sha := commit;
             PR_IID := iid;
             html_url := pull_html_url pr_handle;
             release_notes := notes;
             original_pr_author := author;
             pr_author := name +:+ " <" +:+ email +:+ ">";
             orig_pr_title := canonical_title (pull_title pr_handle);
             labels := list_to_set names |}
  end.

(** *** Labels, lines 234-274 *)

Definition check_swept (labels : gset string) : M unit :=
  if bool_decide ("sweep:done" ∈ labels) then
    log INFO "was already swept -> skipping ......" [];;;
    early_return
  else if bool_decide ("sweep:ignore" ∈ labels) then
    log INFO "is marked as ignore -> skipping ......." [];;;
    early_return
  else ret tt.

(** One turn of the loop of line 246, on [target_branches] and
    [target_branches_exclude]. *)
Definition label_step (label : string) (sets : gset string * gset bytes)
  : M (gset string * gset bytes) :=
  if startswith "sweptFrom:" label then
    log INFO ("contains %s label -> skipping to prevent sweeping it twice ......." +:+ nl) [label];;;
    early_return
  else
    let* sets :=
      if startswith "sweep:from " label then
        match split " " label with
        | [_; name] =>
            let _ss_ := encode_ascii_replace name in
            log INFO "was swept from branch: %s -> excluding %s from the target list"
              [bytes_chars _ss_; bytes_chars _ss_];;;
            ret (sets.1, sets.2 ∪ {[ _ss_ ]})
        | _ => ret sets
        end
      else ret sets in
    if startswith "alsoTargeting:" label then
      match split ":" label with
      | [_; name] =>
          log INFO "also targets the following branches: %s -> add to target list" [name];;;
          ret (sets.1 ∪ {[ name ]}, sets.2)
      | _ =>
          log WARNING "has empty 'alsoTargeting:' label -> ignore" [];;;
          ret sets
      end
    else ret sets.

Definition scan_labels (labels : gset string) : M (gset string * gset bytes) :=
  check_swept labels;;;
  for_each (elements labels) label_step (∅, ∅).

(** *** Rules, lines 276-290 *)

(** [matches and all(matches)] for the match results of one pattern over
    the changed paths: a match object is always true, [None] is false. *)
Definition all_match (p : pattern) (affected_packages : list string) : bool :=
  let matches := map (pattern_match p) affected_packages in
  negb (bool_decide (matches = [])) && forallb id matches.

Definition rule_step (affected_packages : list string) (entry : string * list string)
    (target_branches : gset string) : M (gset string) :=
  let '(rule, branches) := entry in
  match re_compile rule with
  | None => raise (ReError rule)
  | Some pkg_pattern =>
      if all_match pkg_pattern affected_packages
      then ret (target_branches ∪ list_to_set branches)
      else ret target_branches
  end.

Definition resolve_rules (affected_packages : gset string) (target_branches : gset string)
  : M (gset string) :=
  for_each target_branch_rules (rule_step (elements affected_packages)) target_branches.

Definition listChangedPackages (number : Z) : M (gset string) :=
  let* files := call_api (GetFiles number) (λ h, pull_get_files w h number) in
  ret (list_to_set files).

(** *** Disposition, lines 299-311 *)

Definition disposition (target_branches : gset string) : string :=
  if (length (elements target_branches) =? 0)%nat then "sweep:ignore" else "sweep:done".

Definition write_disposition (cr : ChangeRecord) (target_branches : gset string) : M unit :=
  let labels := labels cr ∪ {[ disposition target_branches ]} in
  if dry_run then early_return
  else call_api (SetLabels (PR_IID cr) labels) (λ h, pull_set_labels w h (PR_IID cr) labels).

(** *** Publishing to one branch, lines 314-463 *)

Definition cherry_pick_branch (tbranch : string) : string :=
  "cherry-pick-2-" +:+ merge_commit +:+ "-" +:+ tbranch.

(** Lines 316-320. *)
Definition tbranch_excluded (target_branches_exclude : gset bytes) (tbranch : string) : bool :=
  existsb (λ t_excl, bytes_eq_str t_excl tbranch) (elements target_branches_exclude).

Definition amend_command (cr : ChangeRecord) : string :=
  "git commit --amend -m 'sweep: #" +:+ str_of_int (PR_IID cr) +:+ " " +:+ orig_pr_title cr
    +:+ "' --author='" +:+ pr_author cr +:+ "'".

(** Lines 344-383, the [else] of the ref creation; the result is [failed]. *)
Definition apply_commit (cr : ChangeRecord) (tbranch : string) : M bool :=
  if String.eqb strategy "merge" then
    try_except_else
      (call_api (Merge (cherry_pick_branch tbranch) (commit_sha cr))
         (λ h, repo_merge w h (cherry_pick_branch tbranch) (commit_sha cr)))
      (λ message,
         log CRITICAL "failed to merge merge commit, error: %s" [message];;;
         ret true)
      (λ _, ret false)
  else if String.eqb strategy "cherry-pick" then
    git "git fetch upstream";;;
    git "git fetch origin";;;
    git ("git checkout " +:+ cherry_pick_branch tbranch);;;
    let* (status, _, err) := git ("git cherry-pick -x -m 1 " +:+ commit_sha cr) in
    if status =? 0 then
      let* (status, _, err) := git (amend_command cr) in
      if negb (status =? 0) then
        log CRITICAL "edit commit message, error: {err}" [err];;;
        ret true
      else
        let* (status, _, err) := git ("git push origin " +:+ cherry_pick_branch tbranch) in
        if negb (status =? 0) then
          log CRITICAL "failed to push, error: {err}" [err];;;
          ret true
        else ret false
    else
      log CRITICAL "failed to cherry pick merge commit, error: %s" [err];;;
      git "git cherry-pick --abort";;;
      ret true
  else
    log CRITICAL "invalid strategy! Choose merge or cheery-pick for strategy" [];;;
    ret true.

(** Lines 329-383: the new ref, then the commit on it. *)
Definition create_and_apply (cr : ChangeRecord) (tbranch : string) : M bool :=
  try_except_else
    (let* sha := call_api (GetBranch tbranch) (λ h, repo_get_branch w h tbranch) in
     call_api (CreateGitRef ("refs/heads/" +:+ cherry_pick_branch tbranch) sha)
       (λ h, create_git_ref w h ("refs/heads/" +:+ cherry_pick_branch tbranch) sha))
    (λ message,
       log CRITICAL ("failed to create remote branch '%s' with" +:+ nl +:+ "%s")
         [cherry_pick_branch tbranch; message];;;
       ret true)
    (λ _, apply_commit cr tbranch).

Definition new_pr_title (cr : ChangeRecord) (tbranch : string) : string :=
  "[sweep:" +:+ replace "rel-" EmptyString tbranch +:+ "] " +:+ orig_pr_title cr.

Definition body_text (cr : ChangeRecord) (tbranch : string) : string :=
  "Sweep #" +:+ str_of_int (PR_IID cr) +:+ " `" +:+ orig_pr_title cr +:+ "` to `" +:+ tbranch +:+ "`." +:+ nl
    +:+ nl
    +:+ "Adding original author @" +:+ original_pr_author cr +:+ " as watcher." +:+ nl
    +:+ nl
    +:+ release_notes cr.

(** Lines 395-416. *)
Definition fixer_instructions (cr : ChangeRecord) (tbranch : string) : list string :=
  let body_text := body_text cr tbranch +:+ nl +:+ "Closes #@@@FAILED_ISSUE_ID@@@" in
  [ "cherry-pick " +:+ merge_commit +:+ " into " +:+ tbranch +:+ " failed";
    "check merge conflicts on a local copy of this repository";
    "```bash";
    "git fetch upstream";
    "git checkout upstream/" +:+ shlex_quote tbranch +:+ " -b " +:+ shlex_quote (cherry_pick_branch tbranch);
    "git cherry-pick -x -m 1 " +:+ shlex_quote merge_commit;
    "# Fix the conflicts";
    "git cherry-pick --continue";
    "git commit --amend -m "
      +:+ shlex_quote ("sweep: #" +:+ str_of_int (PR_IID cr) +:+ " " +:+ orig_pr_title cr)
      +:+ " --author=" +:+ shlex_quote (pr_author cr);
    "git push -u origin " +:+ shlex_quote (cherry_pick_branch tbranch);
    EmptyString;
    "# If you have the GitHub CLI installed the PR can be made with";
    "gh pr create \";
    "     --label " +:+ shlex_quote ("sweep:from " +:+ basename source_branch) +:+ " \";
    "     --base " +:+ shlex_quote tbranch +:+ " \";
    "     --repo " +:+ shlex_quote project_name +:+ " \";
    "     --title " +:+ shlex_quote (new_pr_title cr tbranch) +:+ " \";
    "     --body " +:+ shlex_quote body_text;
    "```" ].

Definition add_failed (entry : string * string * string) (o : Outcome) : Outcome :=
  {| good_branches := good_branches o;
     failed_branches := failed_branches o ∪ {[ entry ]} |}.

Definition add_good (tbranch : string) (o : Outcome) : Outcome :=
  {| good_branches := good_branches o ∪ {[ tbranch ]};
     failed_branches := failed_branches o |}.

Definition open_pr_hint (tbranch : string) : string :=
  "Failed to open the PR, try to open a PR from "
    +:+ dirname pr_project_name +:+ ":" +:+ cherry_pick_branch tbranch +:+ " "
    +:+ "to " +:+ tbranch.

(** Lines 422-463, the [else] of [if failed]. *)
Definition open_request (cr : ChangeRecord) (tbranch : string) (o : Outcome) : M Outcome :=
  let head := dirname pr_project_name +:+ ":" +:+ cherry_pick_branch tbranch in
  try_except_else
    (call_api (CreatePull (new_pr_title cr tbranch) (body_text cr tbranch) head tbranch)
       (λ h, repo_create_pull w h (new_pr_title cr tbranch) (body_text cr tbranch) head tbranch))
    (λ message,
       log CRITICAL ("failed to create pull request for '%s' into '%s' with" +:+ nl +:+ "%s")
         [cherry_pick_branch tbranch; tbranch; message];;;
       ret (add_failed (tbranch, merge_commit, open_pr_hint tbranch) o))
    (λ pr,
       let label := "sweep:from " +:+ basename source_branch in
       call_api (AddToLabels pr label) (λ h, add_to_labels w h pr label);;;
       call_api (GetLabels pr) (λ h, pull_get_labels w h pr);;;
       ret (add_good tbranch o)).

(** One turn of the loop of line 314. *)
Definition publish_branch (cr : ChangeRecord) (target_branches_exclude : gset bytes)
    (tbranch : string) (o : Outcome) : M Outcome :=
  if tbranch_excluded target_branches_exclude tbranch then
    log INFO "the PR originates from %s -> skip back sweep to %s" [tbranch; tbranch];;;
    ret o
  else
    let* failed := create_and_apply cr tbranch in
    if failed then
      let text := join nl (fixer_instructions cr tbranch) in
      log CRITICAL text [];;;
      ret (add_failed (tbranch, merge_commit, text) o)
    else
      log INFO "cherry-picked '%s' into '%s'" [merge_commit; tbranch];;;
      open_request cr tbranch o.

Definition no_outcome : Outcome := {| good_branches := ∅; failed_branches := ∅ |}.

Definition publish_all (cr : ChangeRecord) (target_branches : gset string)
    (target_branches_exclude : gset bytes) : M Outcome :=
  for_each (elements target_branches) (publish_branch cr target_branches_exclude) no_outcome.

(** *** Report, lines 465-511 *)

Definition getenv (name : string) : string := default name (environ w name).

Definition sorted (l : list string) : list string :=
  merge_sort (λ a b, Is_true (String.leb a b)) l.

Definition failed_lines (failed : list (string * string * string)) : list string :=
  flat_map (λ '(tbranch, _, text),
              [ "* **" +:+ tbranch +:+ "**";
                "  " +:+ replace nl (nl +:+ "  ") text ]) failed.

(** Truth value of the name [failed_branches] from line 486 on: the loop
    header of line 481 binds it to the text of the tuple visited last;
    when the set is empty the loop is not reached and the name still
    holds the empty set. *)
Definition failed_branches_truthy (o : Outcome) : bool :=
  match last (elements (failed_branches o)) with
  | Some (_, _, text) => negb (String.eqb text EmptyString)
  | None => false
  end.

(** Lines 490-511: the [try] around the issue and the comment. *)
Definition post_summary (cr : ChangeRecord) (comment_lines : list string) (failed : bool)
  : M unit :=
  try_except_else
    (let pr_body := join nl comment_lines in
     let* pr_body :=
       if failed then
         let issue_title := "Sweep failed for PR " +:+ orig_pr_title cr in
         let issue_body := issue_title +:+ nl +:+ "See " +:+ html_url cr in
         let* issue :=
           call_api (CreateIssue issue_title issue_body (original_pr_author cr))
             (λ h, repo_create_issue w h issue_title issue_body (original_pr_author cr)) in
         call_api (AddToLabels issue "sweep:failed") (λ h, add_to_labels w h issue "sweep:failed");;;
         ret (replace "@@@FAILED_ISSUE_ID@@@" (str_of_int issue) pr_body)
       else ret pr_body in
     call_api (CreateIssueComment (PR_IID cr) pr_body)
       (λ h, create_issue_comment w h (PR_IID cr) pr_body))
    (λ message,
       log CRITICAL ("failed to add comment with sweep summary with" +:+ nl +:+ "{0:s}") [message])
    ret.

Definition report (cr : ChangeRecord) (target_branches : gset string) (o : Outcome) : M unit :=
  if (0 <? length (elements target_branches))%nat then
    let comment_lines :=
      [ "**Sweep summary**" +:+ nl;
        "Sweep ran in https://github.com/" +:+ getenv "GITHUB_REPOSITORY"
          +:+ "/actions/runs/" +:+ getenv "GITHUB_RUN_ID" ] in
    let comment_lines :=
      if bool_decide (good_branches o = ∅) then comment_lines
      else (comment_lines ++ [nl +:+ "### Successful:"]
              ++ map (λ x, "* " +:+ x) (sorted (elements (good_branches o))))%list in
    let* comment_lines :=
      if bool_decide (failed_branches o = ∅) then ret comment_lines
      else
        call_api (AddToLabels (PR_IID cr) "sweep:failed")
          (λ h, add_to_labels w h (PR_IID cr) "sweep:failed");;;
        ret (comment_lines ++ [nl +:+ "### Failed:"]
               ++ failed_lines (elements (failed_branches o)))%list in
    post_summary cr comment_lines (failed_branches_truthy o)
  else ret tt.

(** Lines 172-297: all that comes before the disposition is written. *)
Definition plan : M (ChangeRecord * gset string * gset bytes) :=
  let* cr := extract in
  let* (target_branches, target_branches_exclude) := scan_labels (labels cr) in
  let* affected_packages := listChangedPackages (PR_IID cr) in
  let* target_branches := resolve_rules affected_packages target_branches in
  log INFO "PR %d is swept to %d branches: %r"
    (PyStr.str_of_int (PR_IID cr)
       :: PyStr.str_of_int (Z.of_nat (length (elements target_branches)))
       :: elements target_branches);;;
  ret (cr, target_branches, target_branches_exclude).

(** *** The whole function *)

Definition cherryPickPr : M unit :=
  let* cr := extract in
  let* (target_branches, target_branches_exclude) := scan_labels (labels cr) in
  let* affected_packages := listChangedPackages (PR_IID cr) in
  let* target_branches := resolve_rules affected_packages target_branches in
  log INFO "PR %d is swept to %d branches: %r"
    (str_of_int (PR_IID cr) :: str_of_int (Z.of_nat (length (elements target_branches)))
       :: elements target_branches);;;
  write_disposition cr target_branches;;;
  let* o := publish_all cr target_branches target_branches_exclude in
  report cr target_branches o.

End CherryPickPr.

(** ** A concrete engine and concrete worlds, for the examples *)

Module Sample.
Import PyStr.

(** The fragment of [re] syntax the examples use: literal characters,
    [.], a postfix [*] and a leading [^]. As in Python a [*] with nothing
    to repeat, or a second [*], is an error; a pattern with any other
    metacharacter is outside the fragment and refused as well. *)
Inductive atom := AnyChar | Char (c : ascii).
Inductive item := One (a : atom) | Star (a : atom).

Definition is_meta (c : ascii) : bool :=
  bool_decide (c ∈ ["\"; "("; ")"; "["; "]"; "{"; "}"; "+"; "?"; "|"; "$"; "^"; "*"]%char).

Definition atom_of (c : ascii) : atom :=
  if Ascii.eqb c "." then AnyChar else Char c.

Fixpoint parse_items (s : string) : option (list item) :=
  match s with
  | EmptyString => Some []
  | String c s' =>
      if is_meta c then None
      else match s' with
           | String "*" s'' =>
               match s'' with
               | String "*" _ => None
               | _ => cons (Star (atom_of c)) <$> parse_items s''
               end
           | _ => cons (One (atom_of c)) <$> parse_items s'
           end
  end.

Definition compile (s : string) : option (list item) :=
  match s with
  | String "^" s' => parse_items s'
  | _ => parse_items s
  end.

Definition atom_match (a : atom) (c : ascii) : bool :=
  match a with
  | AnyChar => negb (Ascii.eqb c (ascii_of_nat 10))
  | Char c' => Ascii.eqb c c'
  end.

(** [p.match(s)]: the items match a prefix of [s]. *)
Fixpoint items_match (p : list item) (s : string) : bool :=
  match p with
  | [] => true
  | One a :: p' =>
      match s with
      | String c s' => atom_match a c && items_match p' s'
      | EmptyString => false
      end
  | Star a :: p' =>
      (fix star (s : string) : bool :=
         items_match p' s
         || match s with
            | String c s' => atom_match a c && star s'
            | EmptyString => false
            end) s
  end.

#[global] Instance mini_re : Re :=
  {| pattern := list item; re_compile := compile; pattern_match := items_match |}.

Definition answer {A} (fails : bool) (a : A) : api A :=
  if fails then ApiError "Server Error" else ApiOk a.

(** A world that knows one merged pull request, number 12, with the
    given labels and changed files; the calls in [fails] fail whenever
    they are made, every other call succeeds. *)
Definition world (pr_labels files : list string) (fails : call → bool) : World :=
  {| repo_get_commit := λ _ sha, answer (fails (GetCommit sha)) sha;
     run_git := λ _ cmd,
       if fails (Git cmd) then (1, EmptyString, "error: could not apply")
       else (0, "Merge pull request #12 from dev/fix-x", EmptyString);
     repo_get_pull := λ _ n,
       answer (fails (GetPull n))
         {| pull_title := "[v7r2] Fix X"; pull_body := None;
            pull_user_login := "alice";
            pull_html_url := "https://github.com/org/proj/pull/12" |};
     gh_get_user := λ _ login, answer (fails (GetUser login)) tt;
     repo_get_commits := λ _ author,
       answer (fails (GetCommits author)) [("Alice", "alice@example.org")];
     pull_get_labels := λ _ n,
       answer (fails (GetLabels n)) (if n =? 12 then pr_labels else []);
     pull_get_files := λ _ n, answer (fails (GetFiles n)) files;
     pull_set_labels := λ _ n ls, answer (fails (SetLabels n ls)) tt;
     add_to_labels := λ _ n l, answer (fails (AddToLabels n l)) tt;
     repo_get_branch := λ _ b, answer (fails (GetBranch b)) ("tip-of-" +:+ b);
     create_git_ref := λ _ ref sha, answer (fails (CreateGitRef ref sha)) tt;
     repo_merge := λ _ base head, answer (fails (Merge base head)) tt;
     repo_create_pull := λ h title body head base,
       answer (fails (CreatePull title body head base)) (100 + Z.of_nat (length h));
     repo_create_issue := λ h title body assignee,
       answer (fails (CreateIssue title body assignee)) (100 + Z.of_nat (length h));
     create_issue_comment := λ _ n body, answer (fails (CreateIssueComment n body)) tt;
     environ := λ _, None |}.

Definition nothing_fails (c : call) : bool := false.

(** [cherryPickPr] on merge commit [abc123] of [upstream/master]. *)
Definition sweep (w : World) (rules : list (string * list string)) (strategy : string)
    (dry_run : bool) : result unit * list event :=
  run (cherryPickPr w "abc123" "upstream/master" rules strategy "org/proj" "bot/proj" dry_run) [].

(** The calls among the events, oldest first. *)
Definition calls (evs : list event) : list (call * bool) :=
  reverse (omap (λ e, match e with Called c ok => Some (c, ok) | Logged _ _ _ => None end) evs).

End Sample.

(** ** Event classes and the specification-side target plan *)

(** Reading the merge commit, the pull request, its author and its labels:
    all that lines 172-230 ask of the outside. *)
Definition retrieval (merge_commit : string) (e : event) : bool :=
  match e with
  | Logged _ _ _ => true
  | Called (GetCommit _) _ | Called (GetPull _) _ | Called (GetUser _) _
  | Called (GetCommits _) _ | Called (GetLabels _) _ => true
  | Called (Git cmd) _ => String.eqb cmd ("git show " +:+ merge_commit)
  | Called _ _ => false
  end.

(** The same, with the list of changed files of line 277. *)
Definition reading (merge_commit : string) (e : event) : bool :=
  match e with
  | Called (GetFiles _) _ => true
  | _ => retrieval merge_commit e
  end.

Definition is_log (e : event) : bool :=
  match e with
  | Logged _ _ _ => true
  | Called _ _ => false
  end.

Definition is_set_labels (e : event) : bool :=
  match e with
  | Called (SetLabels _ _) _ => true
  | _ => false
  end.


(** The calls that post the summary: the tracking issue and the comment. *)
Definition posts_summary (e : event) : bool :=
  match e with
  | Called (CreateIssue _ _ _) _ | Called (CreateIssueComment _ _) _ => true
  | _ => false
  end.

(** The exclusion of the target plan, read by branch name: [tbranch] is
    excluded when a [sweep:from] label put its encoding in
    [target_branches_exclude]. *)
Definition name_excluded (target_branches_exclude : gset bytes) (tbranch : string) : Prop :=
  encode_ascii_replace tbranch ∈ target_branches_exclude.

(** Final target set as the specification words it:
    (rule-derived ∪ explicit inclusion) − exclusion. *)
Definition final_target_set (target_branches : gset string) (target_branches_exclude : gset bytes)
  : gset string :=
  filter (λ t, encode_ascii_replace t ∉ target_branches_exclude) target_branches.

(** The labels of lines 234-253: already swept, ignored, or itself the
    product of a sweep. *)
Definition marked_swept (labels : gset string) : Prop :=
  "sweep:done" ∈ labels ∨ "sweep:ignore" ∈ labels
  ∨ ∃ label, label ∈ labels ∧ PyStr.startswith "sweptFrom:" label = true.

(** The branches of the rules that apply to [paths]. *)
Definition rule_derived `{Re} (rules : list (string * list string)) (paths : gset string)
    (b : string) : Prop :=
  ∃ rule branches p,
    (rule, branches) ∈ rules ∧ re_compile rule = Some p ∧ b ∈ branches
    ∧ paths ≠ ∅ ∧ ∀ f, f ∈ paths → pattern_match p f = true.

(** The git commands whose exit status the code looks at: the replay, the
    rewrite of its message and the push (lines 356-372). The status of the
    two fetches, of the checkout and of [cherry-pick --abort] is dropped. *)
Definition checked_git (cmd : string) : bool :=
  PyStr.startswith "git cherry-pick -x " cmd
  || PyStr.startswith "git commit --amend " cmd
  || PyStr.startswith "git push " cmd.

(** The calls whose failure marks the branch as failed: creating the ref
    (with the lookup of the target tip), applying the commit, pushing, and
    opening the request. *)
Definition publish_step (c : call) : bool :=
  match c with
  | GetBranch _ | CreateGitRef _ _ | Merge _ _ | CreatePull _ _ _ _ => true
  | Git cmd => checked_git cmd
  | _ => false
  end.

(** ** The steps of publishing to one branch *)

Definition step_failed (e : event) : bool :=
  match e with
  | Called c ok => publish_step c && negb ok
  | Logged _ _ _ => false
  end.

(** Any step of the per-branch state machine, the provenance label of the
    new request included. *)
Definition is_step (e : event) : bool :=
  match e with
  | Called (AddToLabels _ _) _ | Called (GetLabels _) _ => true
  | Called c _ => publish_step c
  | Logged _ _ _ => false
  end.

(** The events of one branch end at a failed step: after it come only log
    messages and calls that are no step (the clean-up of the replay). *)
Definition stopped_at_failure (evs : list event) : Prop :=
  ∃ after e before,
    evs = after ++ e :: before
    ∧ step_failed e = true
    ∧ forallb (λ e, negb (is_step e)) after = true.

(** Everything but writing the labels of the originating request and
    posting the summary. *)
Definition before_report (e : event) : bool :=
  negb (is_set_labels e) && negb (posts_summary e).

(** ** The summary *)





(** The target branches of the pull requests a run opened, oldest first. *)
Definition pull_requests (evs : list event) : list string :=
  omap (λ e, match e with
             | Called (CreatePull _ _ _ base) true => Some base
             | _ => None
             end) (reverse evs).

(** The change record of the sample world, without labels. *)
Definition sample_record : ChangeRecord :=
  {| commit_sha := "abc123";
     PR_IID := 12;
     html_url := "https://github.com/org/proj/pull/12";
     release_notes := EmptyString;
     original_pr_author := "alice";
     pr_author := "Alice <alice@example.org>";
     orig_pr_title := "Fix X";
     labels := ∅ |}.




(** ** [executeCommandWithRetry], lines 28-59 *)

(** The loop of line 35 with [n] attempts left. [last] is what the names
    [status], [out] and [err] hold, [None] as long as they are unbound;
    the function's result is [None] when the [return] of line 59 finds
    them unbound (an [UnboundLocalError]). The strings the world gives
    are [out] and [err] after the [strip().decode()] of lines 43-44. *)
Fixpoint retry (w : World) (cmd : string) (n : nat) (last : option (Z * string * string))
  : M (option (Z * string * string)) :=
  match n with
  | O => ret last
  | S n' =>
      let* (status, out, err) := git w cmd in
      if status =? 0 then ret (Some (status, out, err))
      else retry w cmd n' (Some (status, out, err))
  end.

Definition executeCommandWithRetry (w : World) (cmd : string) (max_attempts : Z)
  : M (option (Z * string * string)) :=
  retry w cmd (Z.to_nat max_attempts) None.

(** ** [getListOfMergeCommits], lines 121-150 *)

Module MergeLog.
Import PyStr.

Definition is_hex (c : ascii) : bool :=
  let n := nat_of_ascii c in
  is_digit c || ((97 <=? n)%nat && (n <=? 102)%nat).

Fixpoint take_hex (s : string) : string :=
  match s with
  | String c s' => if is_hex c then String c (take_hex s') else EmptyString
  | EmptyString => EmptyString
  end.

(** [re.match(r"[0-9a-f]{6,}", line)], the whole match: the repetition
    is greedy, so the match is the longest run of hexadecimal digits the
    line starts with, when that has six characters at least. *)
Definition match_hash (line : string) : option string :=
  let hash := take_hex line in
  if (6 <=? String.length hash)%nat then Some hash else None.

Definition merge_log_command (branch since until : string) : string :=
  "git log --merges --first-parent --oneline --since=" +:+ dquote +:+ since +:+ dquote
    +:+ " --until=" +:+ dquote +:+ until +:+ dquote +:+ " " +:+ branch.

(** One turn of the loop of line 138. *)
Definition hash_step (line : string) (hash_list : gset string) : M (gset string) :=
  match line with
  | EmptyString => ret hash_list
  | _ =>
      match match_hash line with
      | None =>
          log CRITICAL "could not extract merge commit hash from '%s'" [line];;;
          ret hash_list
      | Some hash => ret (hash_list ∪ {[ hash ]})
      end
  end.

(** The line [line] starts with the commit hash [hash]: six or more
    hexadecimal digits, followed by something else. *)
Definition begins_with_hash (line hash : string) : Prop :=
  ∃ rest,
    line = hash +:+ rest
    ∧ (6 ≤ String.length hash)%nat
    ∧ all_chars is_hex hash = true
    ∧ match rest with
      | String c _ => is_hex c = false
      | EmptyString => True
      end.

End MergeLog.

(** The result is [None] when the function returns [None]. *)
Definition getListOfMergeCommits (w : World) (branch since until : string)
  : M (option (gset string)) :=
  log INFO "looking for merge commits on '%s' since '%s'" [branch; since];;;
  let* (status, out, _) := git w (MergeLog.merge_log_command branch since until) in
  if negb (status =? 0) then
    log CRITICAL "failed to retrieve merge commits" [];;;
    ret None
  else
    let* hash_list := for_each (PyStr.split (ascii_of_nat 10) out) MergeLog.hash_step ∅ in
    log INFO "found %d merge commits" [PyStr.str_of_int (Z.of_nat (size hash_list))];;;
    ret (Some hash_list).

(** Everything but a call to the forge: log messages and git commands. *)
Definition local_only (e : event) : bool :=
  match e with
  | Logged _ _ _ | Called (Git _) _ => true
  | Called _ _ => false
  end.
(** ** [getSweepTargetBranchRules], lines 75-118 *)

(** What [yaml.safe_load] makes of [Sweep/config.yaml], as far as lines
    102-112 look at it: a mapping whose entry [sweep-targets], when it is
    there, maps branch names to rule tables. *)
Record CIConfig := {
  sweep_targets : option (gmap string (list (string * list string)));
}.

(** No slash in [s]: a remote name, or a branch name of one component. *)
Definition no_slash (s : string) : bool :=
  PyStr.all_chars (λ c, negb (Ascii.eqb c "/")) s.

Section Configuration.
Import PyStr.
Variable w : World.

(** [yaml.safe_load(out)]: [None] when it raises, [Some None] when the
    document is empty and the value is Python's [None]. *)
Variable yaml_safe_load : string → option (option CIConfig).

(** The result is [None] when the function returns [None]. *)
Definition getSweepTargetBranchRules (src_branch : string)
  : M (option (list (string * list string))) :=
  let* (status, out, _) := git w ("git show " +:+ src_branch +:+ ":Sweep/config.yaml") in
  if negb (status =? 0) then
    log CRITICAL "failed to retrieve CI configuration" [];;;
    ret None
  else
    match yaml_safe_load out with
    | None =>
        log CRITICAL ("failed to interpret the following text as YAML:" +:+ nl +:+ "%s") [out];;;
        ret None
    | Some None =>
        log WARNING "empty Sweep/config.yaml in %s, hopefully you knew what you were doing."
          [src_branch];;;
        ret None
    | Some (Some CI_config) =>
        match split "/" src_branch with
        | _ :: branch_wo_remote :: _ =>
            match sweep_targets CI_config ≫= (λ targets, targets !! branch_wo_remote) with
            | Some (entry :: rules) =>
                let target_branch_rules := entry :: rules in
                log INFO "read %d sweeping rules for PRs to '%s"
                  [str_of_int (Z.of_nat (length target_branch_rules)); src_branch];;;
                ret (Some target_branch_rules)
            | _ => ret None
            end
        | _ => raise IndexError
        end
    end.

End Configuration.

(** ** [main], lines 515-691 *)

(** The command line, after [parse_args]. The verbosity only sets up the
    logging and is left out; [args_workdir] is
    [os.path.abspath(args.root)]. *)
Record Args := {
  args_branch : string;
  args_dry_run : bool;
  args_project_name : string;
  args_pr_project_name : string;
  args_since : string;
  args_strategy : string;
  args_token : string;
  args_until : string;
  args_workdir : string;
}.

Section Main.
Import PyStr.
Context `{Re} (w : World).
Variable yaml_safe_load : string → option (option CIConfig).

(** [gh.get_repo(name)], lines 622 and 628: the two look-ups come before
    every command and every other call, and only their outcome matters
    to what follows. *)
Variable get_repo : string → api unit.

Variable args : Args.

(** A call made as a statement: a [return] in the callee ends the call,
    not the caller; an exception goes through. *)
Definition call_statement (m : M unit) : M unit :=
  λ h, match m h with
       | (Returned, h') => (Val tt, h')
       | (r, h') => (r, h')
       end.

(** Lines 672-687. *)
Definition sweep_loop (target_branch_rules : list (string * list string))
    (PR_list : gset string) : M unit :=
  for_each (elements PR_list)
    (λ pr _,
       call_statement
         (cherryPickPr w pr (args_branch args) target_branch_rules (args_strategy args)
            (args_project_name args) (args_pr_project_name args) (args_dry_run args)))
    tt.

(** Lines 663-670; the value is the argument of [sys.exit]. *)
Definition no_merge_commits : M (option Z) :=
  log INFO "no PRs to '%s' found in period from %s until %s"
    [args_branch args; args_since args; args_until args];;;
  ret (Some 0).

(** Lines 645-691. The value is [Some code] for [sys.exit(code)] and
    [None] for [return None]. The changes of directory of lines 642-643
    and 690 stay inside the process and are not recorded. *)
Definition sweep_period (remote_name : string) : M (option Z) :=
  let* (status, _, _) := git w ("git fetch --prune " +:+ remote_name) in
  if negb (status =? 0) then
    log CRITICAL "failed to fetch from '%s'" [remote_name];;;
    ret None
  else
    let* rules := getSweepTargetBranchRules w yaml_safe_load (args_branch args) in
    let* target_branch_rules :=
      match rules with
      | Some (entry :: rules') => ret (entry :: rules')
      | _ =>
          log INFO "no sweeping rules for branch '%s' found" [args_branch args];;;
          ret []
      end in
    let* PR_list :=
      getListOfMergeCommits w (args_branch args) (args_since args) (args_until args) in
    match PR_list with
    | Some hashes =>
        if bool_decide (hashes = ∅) then no_merge_commits
        else
          sweep_loop target_branch_rules hashes;;;
          ret None
    | None => no_merge_commits
    end.

Definition main : M (option Z) :=
  (if args_dry_run args then log INFO "running in TEST mode" [] else ret tt);;;
  match split "/" (args_branch args) with
  | remote_name :: _ :: _ =>
      match get_repo (args_project_name args) with
      | ApiError message =>
          log CRITICAL "error communication with Github API '%s'" [message];;;
          ret (Some 1)
      | ApiOk _ =>
          match get_repo (args_pr_project_name args) with
          | ApiError message =>
              log CRITICAL "error communication with Github API '%s'" [message];;;
              ret (Some 1)
          | ApiOk _ =>
              git w "git remote rename origin upstream";;;
              git w ("git remote add origin https://" +:+ args_token args
                       +:+ "@github.com/" +:+ args_pr_project_name args +:+ ".git");;;
              log INFO "changing to root directory of git repository '%s'" [args_workdir args];;;
              sweep_period remote_name
          end
      end
  | _ =>
      log CRITICAL "expect branch to specify a remote branch (e.g. 'upstream/master')" [];;;
      log CRITICAL "received branch '%s' which does not look like a remote branch"
        [args_branch args];;;
      log CRITICAL "--> aborting" [];;;
      ret (Some 1)
  end.

End Main.
(** ** More event classes *)

(** A pull request was opened. *)
Definition opens_request (e : event) : bool :=
  match e with
  | Called (CreatePull _ _ _ _) true => true
  | _ => false
  end.

(** Looking up the tip of a target branch, creating the new ref, or a
    log message: what a turn of the publish loop does before it applies
    the commit. *)
Definition makes_ref (e : event) : bool :=
  match e with
  | Logged _ _ _ | Called (GetBranch _) _ | Called (CreateGitRef _ _) _ => true
  | Called _ _ => false
  end.

(** No git command but the [git show] of the merge commit. *)
Definition only_git_show (merge_commit : string) (e : event) : bool :=
  match e with
  | Called (Git cmd) _ => String.eqb cmd ("git show " +:+ merge_commit)
  | _ => true
  end.

(** No call of [pr_repo.merge]. *)
Definition no_merge (e : event) : bool :=
  match e with
  | Called (Merge _ _) _ => false
  | _ => true
  end.

(** No dash in [s], as in a commit hash. *)
Definition no_dash (s : string) : bool :=
  PyStr.all_chars (λ c, negb (Ascii.eqb c "-")) s.

(** No closing bracket in [s]. *)
Definition no_bracket (s : string) : bool :=
  PyStr.all_chars (λ c, negb (Ascii.eqb c "]")) s.

(** [s] does not start with white space. *)
Definition starts_without_space (s : string) : bool :=
  match s with
  | String c _ => negb (Extract.is_space c)
  | EmptyString => true
  end.

(** ** What the labels ask for *)

Definition no_colon (s : string) : bool :=
  PyStr.all_chars (λ c, negb (Ascii.eqb c ":")) s.

Definition no_space (s : string) : bool :=
  PyStr.all_chars (λ c, negb (Ascii.eqb c " ")) s.

(** The label names [b] as a further target: [alsoTargeting:b], with no
    second colon. *)
Definition also_targets (label b : string) : Prop :=
  label = "alsoTargeting:" +:+ b ∧ no_colon b = true.

(** The label tells the branch the request was swept from: [sweep:from
    name], with no second space; [x] is what the code keeps of it. *)
Definition swept_from (label : string) (x : bytes) : Prop :=
  ∃ name, label = "sweep:from " +:+ name ∧ no_space name = true ∧ x = encode_ascii_replace name.

(** No [@] in [s]. *)
Definition no_at (s : string) : bool :=
  PyStr.all_chars (λ c, negb (Ascii.eqb c "@")) s.

(** A log message, a git command, or a call that only reads from the
    forge. *)
Definition reads_or_local (e : event) : bool :=
  match e with
  | Logged _ _ _ | Called (Git _) _ => true
  | Called (GetCommit _) _ | Called (GetPull _) _ | Called (GetUser _) _
  | Called (GetCommits _) _ | Called (GetLabels _) _ | Called (GetFiles _) _ => true
  | Called _ _ => false
  end.

(** ** A concrete run, for the examples *)

Module SampleRun.

Definition args : Args :=
  {| args_branch := "upstream/master";
     args_dry_run := false;
     args_project_name := "org/proj";
     args_pr_project_name := "bot/proj";
     args_since := "1 month ago";
     args_strategy := "cherry-pick";
     args_token := "TOKEN";
     args_until := "now";
     args_workdir := "/work/proj" |}.

(** The same command line with [--dry-run]. *)
Definition dry_args : Args :=
  {| args_branch := "upstream/master";
     args_dry_run := true;
     args_project_name := "org/proj";
     args_pr_project_name := "bot/proj";
     args_since := "1 month ago";
     args_strategy := "cherry-pick";
     args_token := "TOKEN";
     args_until := "now";
     args_workdir := "/work/proj" |}.

(** Both repositories are found. *)
Definition found (name : string) : api unit := ApiOk tt.

(** A configuration with one rule for [master], whatever the text. *)
Definition one_rule (out : string) : option (option CIConfig) :=
  Some (Some {| sweep_targets := Some {[ "master" := [("^Detector/.*", ["rel-8"])] ]} |}).


(** Every [git fetch] fails. *)
Definition fetch_fails (c : call) : bool :=
  match c with
  | Git cmd => String.prefix "git fetch " cmd
  | _ => false
  end.

End SampleRun.

(** The text that comes before the author's name in the body of a
    downstream request (line 389), and before the group of the pattern of
    line 212. *)
Definition watcher_marker : string := "Adding original author @".

(** In [s], the marker does not begin before the place where [s] begins,
    whatever text without [@] comes before. *)
Definition not_before (s : string) : Prop :=
  ∀ Q, no_at Q = true → Q ≠ EmptyString → String.prefix watcher_marker (Q +:+ s) = false.

(** The world [w], but for the commits of an author: there are none. *)
Definition without_commits (w : World) : World :=
  {| repo_get_commit := repo_get_commit w;
     run_git := run_git w;
     repo_get_pull := repo_get_pull w;
     gh_get_user := gh_get_user w;
     repo_get_commits := λ _ _, ApiOk [];
     pull_get_labels := pull_get_labels w;
     pull_get_files := pull_get_files w;
     pull_set_labels := pull_set_labels w;
     add_to_labels := add_to_labels w;
     repo_get_branch := repo_get_branch w;
     create_git_ref := create_git_ref w;
     repo_merge := repo_merge w;
     repo_create_pull := repo_create_pull w;
     repo_create_issue := repo_create_issue w;
     create_issue_comment := create_issue_comment w;
     environ := environ w |}.






(** ** Reasoning about computations *)

(** [post m Q]: from any history, [m] ends with a result and added events
    that satisfy [Q]. *)
Definition post {A} (m : M A) (Q : result A → list event → Prop) : Prop :=
  ∀ h, ∃ r evs, m h = (r, evs ++ h) ∧ Q r evs.

(** Every event [m] adds satisfies [P]. *)
Definition emits {A} (P : event → bool) (m : M A) : Prop :=
  post m (λ _ evs, forallb P evs = true).

(** As [emits], and [m] never hands a value to what follows it. *)
Definition stops {A} (P : event → bool) (m : M A) : Prop :=
  post m (λ r evs, (∀ a, r ≠ Val a) ∧ forallb P evs = true).

Section PostRules.
Context {A B : Type}.

Lemma post_weaken (m : M A) (Q Q' : result A → list event → Prop) :
  post m Q → (∀ r evs, Q r evs → Q' r evs) → post m Q'.
Proof.
  intros Hm HQ h. destruct (Hm h) as (r & evs & -> & Hq). eauto.
Qed.

Lemma post_ret (a : A) (Q : result A → list event → Prop) :
  Q (Val a) [] → post (ret a) Q.
Proof. intros Hq h. exists (Val a), []. auto. Qed.

Lemma post_early_return (Q : result A → list event → Prop) :
  Q Returned [] → post early_return Q.
Proof. intros Hq h. exists Returned, []. auto. Qed.

Lemma post_raise e (Q : result A → list event → Prop) :
  Q (Raised e) [] → post (raise e) Q.
Proof. intros Hq h. exists (Raised e), []. auto. Qed.

Lemma post_call_api c (answer : history → api A) (Q : result A → list event → Prop) :
  (∀ a, Q (Val a) [Called c true]) →
  (∀ m, Q (Raised (GithubException m)) [Called c false]) →
  post (call_api c answer) Q.
Proof.
  intros Hok Herr h. unfold call_api. destruct (answer h) as [a|m].
  - exists (Val a), [Called c true]. auto.
  - exists (Raised (GithubException m)), [Called c false]. auto.
Qed.

Lemma post_bind (m : M A) (k : A → M B) Q1 (Q : result B → list event → Prop) :
  post m Q1 →
  (∀ a evs1, Q1 (Val a) evs1 → post (k a) (λ r evs2, Q r (evs2 ++ evs1))) →
  (∀ evs1, Q1 Returned evs1 → Q Returned evs1) →
  (∀ e evs1, Q1 (Raised e) evs1 → Q (Raised e) evs1) →
  post (bind m k) Q.
Proof.
  intros Hm Hk Hret Hexn h. unfold bind.
  destruct (Hm h) as (r & evs1 & -> & Hq1). destruct r as [a| |e].
  - destruct (Hk a evs1 Hq1 (evs1 ++ h)) as (r & evs2 & -> & Hq).
    exists r, (evs2 ++ evs1). by rewrite <- (assoc_L (++)).
  - exists Returned, evs1. auto.
  - exists (Raised e), evs1. auto.
Qed.

Lemma post_try_except_else (body : M A) (handler : string → M B) (orelse : A → M B)
    Q1 (Q : result B → list event → Prop) :
  post body Q1 →
  (∀ a evs1, Q1 (Val a) evs1 → post (orelse a) (λ r evs2, Q r (evs2 ++ evs1))) →
  (∀ m evs1, Q1 (Raised (GithubException m)) evs1 →
     post (handler m) (λ r evs2, Q r (evs2 ++ evs1))) →
  (∀ evs1, Q1 Returned evs1 → Q Returned evs1) →
  (∀ e evs1, Q1 (Raised e) evs1 → (∀ m, e ≠ GithubException m) → Q (Raised e) evs1) →
  post (try_except_else body handler orelse) Q.
Proof.
  intros Hm Hk Hh Hret Hexn h. unfold try_except_else.
  destruct (Hm h) as (r & evs1 & -> & Hq1). destruct r as [a| |e].
  - destruct (Hk a evs1 Hq1 (evs1 ++ h)) as (r & evs2 & -> & Hq).
    exists r, (evs2 ++ evs1). by rewrite <- (assoc_L (++)).
  - exists Returned, evs1. auto.
  - destruct e as [m|pat|].
    + destruct (Hh m evs1 Hq1 (evs1 ++ h)) as (r & evs2 & -> & Hq).
      exists r, (evs2 ++ evs1). by rewrite <- (assoc_L (++)).
    + exists (Raised (ReError pat)), evs1. split; [done|]. by apply Hexn.
    + exists (Raised IndexError), evs1. split; [done|]. by apply Hexn.
Qed.
End PostRules.

Lemma post_log lvl fmt args (Q : result unit → list event → Prop) :
  Q (Val tt) [Logged lvl fmt args] → post (log lvl fmt args) Q.
Proof. intros Hq h. exists (Val tt), [Logged lvl fmt args]. auto. Qed.

Lemma log_post lvl fmt args :
  post (log lvl fmt args) (λ r evs, r = Val tt ∧ evs = [Logged lvl fmt args]).
Proof. by apply post_log. Qed.

Lemma post_git w cmd (Q : result (Z * string * string) → list event → Prop) :
  (∀ status out err, Q (Val (status, out, err)) [Called (Git cmd) (status =? 0)]) →
  post (git w cmd) Q.
Proof.
  intros Hq h. unfold git. destruct (run_git w h cmd) as [[status out] err].
  exists (Val (status, out, err)), [Called (Git cmd) (status =? 0)]. auto.
Qed.

(** A loop keeps an invariant [I] of its state and of the events so far. *)
Lemma post_for_each {A S} (body : A → S → M S) (I : S → list event → Prop)
    (Q : result S → list event → Prop) (l : list A) :
  (∀ x s evs, x ∈ l → I s evs →
     post (body x s) (λ r evs2,
       match r with
       | Val s' => I s' (evs2 ++ evs)
       | _ => Q r (evs2 ++ evs)
       end)) →
  (∀ s evs, I s evs → Q (Val s) evs) →
  ∀ s evs, I s evs → post (for_each l body s) (λ r evs2, Q r (evs2 ++ evs)).
Proof.
  intros Hbody Hend. induction l as [|x l IH]; intros s evs Hi; simpl.
  - apply post_ret. simpl. auto.
  - eapply post_bind.
    + apply (Hbody x s evs); [left | done].
    + intros s' evs1 Hi'. simpl in Hi'.
      eapply post_weaken.
      * apply IH; [|exact Hi']. intros y s0 evs0 Hy. apply Hbody. by right.
      * intros r evs2 Hq. simpl in Hq. by rewrite <- (assoc_L (++)).
    + intros evs1 Hq. exact Hq.
    + intros e evs1 Hq. exact Hq.
Qed.

Section EmitsRules.
Context {A B : Type} (P : event → bool).

Lemma emits_ret (a : A) : emits P (ret a).
Proof. by apply post_ret. Qed.

Lemma emits_early_return : emits P (@early_return A).
Proof. by apply post_early_return. Qed.

Lemma emits_raise e : emits P (@raise A e).
Proof. by apply post_raise. Qed.

Lemma emits_call_api c (answer : history → api A) :
  P (Called c true) = true → P (Called c false) = true → emits P (call_api c answer).
Proof. intros Ht Hf. apply post_call_api; intros; simpl; by rewrite ?Ht, ?Hf. Qed.

Lemma forallb_app_true (l1 l2 : list event) :
  forallb P l1 = true → forallb P l2 = true → forallb P (l1 ++ l2) = true.
Proof. intros H1 H2. rewrite forallb_app, H1, H2. done. Qed.

Lemma emits_bind (m : M A) (k : A → M B) :
  emits P m → (∀ a, emits P (k a)) → emits P (bind m k).
Proof.
  intros Hm Hk. eapply post_bind; [exact Hm | | auto | auto].
  intros a evs1 H1. eapply post_weaken; [apply Hk|].
  intros r evs2 H2. by apply forallb_app_true.
Qed.

Lemma stops_emits (m : M A) : stops P m → emits P m.
Proof. intros Hm. eapply post_weaken; [exact Hm|]. by intros r evs [_ ?]. Qed.

Lemma stops_bind (m : M A) (k : A → M B) : stops P m → stops P (bind m k).
Proof.
  intros Hm. eapply post_bind; [exact Hm | | |].
  - intros a evs1 [Hne _]. by destruct (Hne a).
  - intros evs1 [_ ?]. done.
  - intros e evs1 [_ ?]. done.
Qed.

Lemma emits_then_stops (m : M A) (k : A → M B) :
  emits P m → (∀ a, stops P (k a)) → stops P (bind m k).
Proof.
  intros Hm Hk. eapply post_bind; [exact Hm | | |]; simpl.
  - intros a evs1 H1. eapply post_weaken; [apply Hk|].
    intros r evs2 [? H2]. split; [done|]. by apply forallb_app_true.
  - intros evs1 ?. done.
  - intros e evs1 ?. done.
Qed.

Lemma emits_try_except_else (body : M A) (handler : string → M B) (orelse : A → M B) :
  emits P body → (∀ m, emits P (handler m)) → (∀ a, emits P (orelse a)) →
  emits P (try_except_else body handler orelse).
Proof.
  intros Hm Hh Hk. eapply post_try_except_else; [exact Hm | | | auto | auto].
  - intros a evs1 H1. eapply post_weaken; [apply Hk|].
    intros r evs2 H2. by apply forallb_app_true.
  - intros m evs1 H1. eapply post_weaken; [apply Hh|].
    intros r evs2 H2. by apply forallb_app_true.
Qed.
End EmitsRules.

Lemma emits_log P lvl fmt args : P (Logged lvl fmt args) = true → emits P (log lvl fmt args).
Proof. intros Hp. apply post_log. simpl. by rewrite Hp. Qed.

Lemma emits_git P w cmd : (∀ ok, P (Called (Git cmd) ok) = true) → emits P (git w cmd).
Proof. intros Hp. apply post_git. intros. simpl. by rewrite Hp. Qed.

Lemma emits_for_each {A S} P (body : A → S → M S) (l : list A) (s : S) :
  (∀ x s, emits P (body x s)) → emits P (for_each l body s).
Proof.
  intros Hbody. revert s. induction l as [|x l IH]; intros s; simpl.
  - apply emits_ret.
  - apply emits_bind; auto.
Qed.

Lemma emits_weaken {A} (P P' : event → bool) (m : M A) :
  (∀ e, P e = true → P' e = true) → emits P m → emits P' m.
Proof.
  intros Himp Hm. eapply post_weaken; [exact Hm|]. simpl.
  intros _ evs. rewrite !forallb_forall. auto.
Qed.

(** One syntax-directed step of an [emits] proof. *)
Ltac emits_step :=
  lazymatch goal with
  | |- emits _ (bind _ _) => apply emits_bind; [|intros]
  | |- emits _ (ret _) => apply emits_ret
  | |- emits _ early_return => apply emits_early_return
  | |- emits _ (raise _) => apply emits_raise
  | |- emits _ (log _ _ _) => apply emits_log; reflexivity
  | |- emits _ (call_api _ _) => apply emits_call_api; reflexivity
  | |- emits _ (git _ _) => apply emits_git; intros; simpl; rewrite ?String.eqb_refl; reflexivity
  | |- emits _ (try_except_else _ _ _) => apply emits_try_except_else; intros
  | |- emits _ (for_each _ _ _) => apply emits_for_each; intros
  | |- emits _ (if ?b then _ else _) => destruct b
  | |- emits _ (match ?x with _ => _ end) => destruct x
  end.

Ltac emits_auto := repeat emits_step.

Section Phases.
Import PyStr Extract.
Context `{Re} (w : World).
Variables (merge_commit source_branch : string).
Variable target_branch_rules : list (string * list string).
Variables (strategy project_name pr_project_name : string).

Lemma extract_emits : emits (retrieval merge_commit) (extract w merge_commit).
Proof. unfold extract, get_pull_handle. emits_auto. Qed.

Lemma label_step_emits label sets : emits is_log (label_step label sets).
Proof. unfold label_step. emits_auto. Qed.

Lemma scan_labels_emits labels : emits is_log (scan_labels labels).
Proof. unfold scan_labels, check_swept. emits_auto. apply label_step_emits. Qed.

Lemma resolve_rules_emits P rules paths tb : emits P (resolve_rules rules paths tb).
Proof. unfold resolve_rules, rule_step. emits_auto. Qed.

Lemma listChangedPackages_emits n :
  emits (reading merge_commit) (listChangedPackages w n).
Proof. unfold listChangedPackages. emits_auto. Qed.
End Phases.

(** ** Labels that end the processing *)

Section Aborts.
Import PyStr Extract.

Lemma label_step_continues label sets h :
  startswith "sweptFrom:" label = false →
  ∃ sets' evs, label_step label sets h = (Val sets', evs ++ h) ∧ forallb is_log evs = true.
Proof.
  intros Hs. unfold label_step. rewrite Hs. unfold bind, log, ret.
  repeat case_match; simplify_eq;
    first [ by eexists _, [] | by eexists _, [_] | by eexists _, [_; _] ].
Qed.

Lemma label_step_swept label sets h :
  startswith "sweptFrom:" label = true →
  ∃ evs, label_step label sets h = (Returned, evs ++ h) ∧ forallb is_log evs = true.
Proof.
  intros Hs. unfold label_step. rewrite Hs. unfold bind, log, early_return.
  by eexists [_].
Qed.

Lemma label_loop_swept (l : list string) sets h :
  (∃ label, label ∈ l ∧ startswith "sweptFrom:" label = true) →
  ∃ evs, for_each l label_step sets h = (Returned, evs ++ h) ∧ forallb is_log evs = true.
Proof.
  revert sets h. induction l as [|x l IH]; intros sets h (label & Hin & Hs).
  - by apply elem_of_nil in Hin.
  - simpl. unfold bind at 1. destruct (startswith "sweptFrom:" x) eqn:Hx.
    + destruct (label_step_swept x sets h Hx) as (evs & -> & Hlog). eauto.
    + destruct (label_step_continues x sets h Hx) as (sets' & evs1 & -> & Hlog1).
      destruct (IH sets' (evs1 ++ h)) as (evs2 & -> & Hlog2).
      { exists label. split; [|done]. apply elem_of_cons in Hin as [->|]; [congruence|done]. }
      exists (evs2 ++ evs1). split; [by rewrite <- (assoc_L (++))|].
      by apply forallb_app_true.
Qed.

Lemma scan_labels_swept labels h :
  marked_swept labels →
  ∃ evs, scan_labels labels h = (Returned, evs ++ h) ∧ forallb is_log evs = true.
Proof.
  intros Hm. unfold scan_labels, check_swept.
  destruct (bool_decide ("sweep:done" ∈ labels)) eqn:Hdone.
  { by eexists [_]. }
  destruct (bool_decide ("sweep:ignore" ∈ labels)) eqn:Hignore.
  { by eexists [_]. }
  apply bool_decide_eq_false in Hdone, Hignore.
  destruct Hm as [?|[?|(label & Hin & Hs)]]; [done..|].
  unfold bind at 1, ret at 1.
  apply label_loop_swept. exists label. by rewrite elem_of_elements.
Qed.
End Aborts.

Lemma retrieval_of_log e : is_log e = true → ∀ mc, retrieval mc e = true.
Proof. by destruct e. Qed.

Lemma reading_of_retrieval mc e : retrieval mc e = true → reading mc e = true.
Proof. destruct e as [c ok|]; [|done]. by destruct c. Qed.

Lemma forallb_impl {A} (P Q : A → bool) (l : list A) :
  (∀ x, P x = true → Q x = true) → forallb P l = true → forallb Q l = true.
Proof. rewrite !forallb_forall. auto. Qed.

(** C5. A change record whose labels hold [sweep:done], [sweep:ignore] or
    a [sweptFrom:] label makes [cherryPickPr] return at once: whatever the
    forge answers, the run has made no call besides reading the merge
    commit, the pull request, its author and its labels, so no label is
    written, no ref, pull request, issue or comment is created. This holds
    from every history, hence also for a second run on a record already
    labelled [sweep:done]. *)
Theorem swept_record_is_left_alone `{Re} (w : World)
    (merge_commit source_branch : string) (target_branch_rules : list (string * list string))
    (strategy project_name pr_project_name : string) (dry_run : bool)
    (h h1 : history) (cr : ChangeRecord) :
  extract w merge_commit h = (Val cr, h1) →
  marked_swept (labels cr) →
  ∃ evs,
    cherryPickPr w merge_commit source_branch target_branch_rules strategy
      project_name pr_project_name dry_run h = (Returned, evs ++ h)
    ∧ forallb (retrieval merge_commit) evs = true.
Proof.
  intros Hex Hm.
  destruct (extract_emits w merge_commit h) as (r & evs1 & Hex' & Hret).
  rewrite Hex in Hex'. simplify_eq.
  destruct (scan_labels_swept (labels cr) (evs1 ++ h) Hm) as (evs2 & Hscan & Hlog).
  exists (evs2 ++ evs1). split.
  - unfold cherryPickPr. unfold bind at 1. rewrite Hex.
    unfold bind at 1. rewrite Hscan. by rewrite <- (assoc_L (++)).
  - apply forallb_app_true; [|done].
    eapply forallb_impl; [|exact Hlog]. intros e He. by apply retrieval_of_log.
Qed.

(** C8. With the dry-run flag set, [cherryPickPr] stops at line 309: it
    does not run to its end, and every call it has made is a read (merge
    commit, pull request, author, labels, changed files). In particular
    [set_labels] is not called and no ref, pull request, issue or comment
    is created. *)
Theorem dry_run_only_reads `{Re} (w : World)
    (merge_commit source_branch : string) (target_branch_rules : list (string * list string))
    (strategy project_name pr_project_name : string) (h : history) :
  ∃ r evs,
    cherryPickPr w merge_commit source_branch target_branch_rules strategy
      project_name pr_project_name true h = (r, evs ++ h)
    ∧ (∀ a, r ≠ Val a)
    ∧ forallb (reading merge_commit) evs = true.
Proof.
  revert h. change (stops (reading merge_commit)
    (cherryPickPr w merge_commit source_branch target_branch_rules strategy
       project_name pr_project_name true)).
  unfold cherryPickPr.
  apply emits_then_stops.
  { eapply emits_weaken; [apply reading_of_retrieval | apply extract_emits]. }
  intros cr. apply emits_then_stops.
  { eapply emits_weaken; [|apply scan_labels_emits].
    intros e He. by apply reading_of_retrieval, retrieval_of_log. }
  intros [target_branches target_branches_exclude]. apply emits_then_stops.
  { apply listChangedPackages_emits. }
  intros affected_packages. apply emits_then_stops.
  { apply resolve_rules_emits. }
  intros target_branches'. apply emits_then_stops.
  { by apply emits_log. }
  intros _. apply stops_bind.
  unfold write_disposition. by apply post_early_return.
Qed.

(** ** Rule resolution *)

Section Rules.
Context `{Re}.

Lemma all_match_list p (l : list string) :
  all_match p l = true ↔ l ≠ [] ∧ ∀ f, f ∈ l → pattern_match p f = true.
Proof.
  unfold all_match. rewrite andb_true_iff, negb_true_iff, bool_decide_eq_false.
  rewrite forallb_forall. split.
  - intros [Hne Hall]. split.
    + intros ->. by apply Hne.
    + intros f Hf. apply (Hall (pattern_match p f)).
      apply in_map. by apply list_elem_of_In.
  - intros [Hne Hall]. split.
    + intros Hnil. apply Hne. by apply fmap_nil_inv in Hnil.
    + intros b Hb. apply in_map_iff in Hb as (f & <- & Hf).
      apply Hall. by apply list_elem_of_In.
Qed.

Lemma all_match_set p (paths : gset string) :
  all_match p (elements paths) = true
  ↔ paths ≠ ∅ ∧ ∀ f, f ∈ paths → pattern_match p f = true.
Proof.
  rewrite all_match_list. split; intros [Hne Hall]; split.
  - intros ->. apply Hne. apply elements_empty.
  - intros f Hf. apply Hall. by apply elem_of_elements.
  - intros Hnil. apply Hne. apply elements_empty_iff in Hnil. by apply leibniz_equiv.
  - intros f Hf. apply Hall. by apply elem_of_elements in Hf.
Qed.

Lemma rule_derived_cons entry rules paths b :
  rule_derived (entry :: rules) paths b
  ↔ rule_derived [entry] paths b ∨ rule_derived rules paths b.
Proof.
  unfold rule_derived. split.
  - intros (rule & branches & p & Hin & Hrest).
    apply elem_of_cons in Hin as [Heq|Hin].
    + subst entry. left. exists rule, branches, p. split; [left | done].
    + right. exists rule, branches, p. done.
  - intros [(rule & branches & p & Hin & Hrest)|(rule & branches & p & Hin & Hrest)].
    + apply list_elem_of_singleton in Hin. subst entry.
      exists rule, branches, p. split; [left | done].
    + exists rule, branches, p. split; [by right | done].
Qed.

Lemma resolve_rules_spec rules (paths tb0 : gset string) h :
  match resolve_rules rules paths tb0 h with
  | (Val tb, h') => h' = h ∧ ∀ b, b ∈ tb ↔ b ∈ tb0 ∨ rule_derived rules paths b
  | (Raised e, h') =>
      h' = h ∧ ∃ rule branches,
        (rule, branches) ∈ rules ∧ re_compile rule = None ∧ e = ReError rule
  | (Returned, _) => False
  end.
Proof.
  unfold resolve_rules. revert tb0.
  induction rules as [|[rule branches] rules IH]; intros tb0; simpl.
  - split; [done|]. intros b. split; [by left|].
    intros [?|(rule & branches & p & Hin & _)]; [done|]. by apply elem_of_nil in Hin.
  - unfold bind, rule_step at 1. destruct (re_compile rule) as [p|] eqn:Hc.
    + destruct (all_match p (elements paths)) eqn:Hall; unfold ret at 1.
      * specialize (IH (tb0 ∪ list_to_set branches)).
        destruct (for_each rules _ _ h) as [[tb| |e] h'].
        -- destruct IH as [-> IH]. split; [done|]. intros b.
           rewrite IH, rule_derived_cons, elem_of_union, elem_of_list_to_set.
           apply all_match_set in Hall as [Hne Hall].
           split.
           ++ intros [[?|Hb]|?]; [by left | | by right; right].
              right; left. exists rule, branches, p. split; [left | done].
           ++ intros [?|[(rule' & branches' & p' & Hin & Hc' & Hb & _)|?]];
                [by left; left | | by right].
              apply list_elem_of_singleton in Hin. simplify_eq. by left; right.
        -- done.
        -- destruct IH as [-> (rule' & branches' & Hin & Hn & ->)].
           split; [done|]. exists rule', branches'. split; [by right | done].
      * specialize (IH tb0).
        destruct (for_each rules _ _ h) as [[tb| |e] h'].
        -- destruct IH as [-> IH]. split; [done|]. intros b.
           rewrite IH, rule_derived_cons. split; [intros [?|?]; auto|].
           intros [?|[(rule' & branches' & p' & Hin & Hc' & Hb & Hne & Hm)|?]];
             [by left | | by right].
           apply list_elem_of_singleton in Hin. simplify_eq.
           match goal with
           | Hm : ∀ f, f ∈ paths → pattern_match ?q f = true |- _ =>
               assert (all_match q (elements paths) = true) by by apply all_match_set
           end.
           congruence.
        -- done.
        -- destruct IH as [-> (rule' & branches' & Hin & Hn & ->)].
           split; [done|]. exists rule', branches'. split; [by right | done].
    + unfold raise. split; [done|]. exists rule, branches. split; [left | done].
Qed.

Lemma resolve_rules_total rules (paths tb0 : gset string) h :
  (∀ rule branches, (rule, branches) ∈ rules → re_compile rule ≠ None) →
  ∃ tb, resolve_rules rules paths tb0 h = (Val tb, h).
Proof.
  intros Hok. pose proof (resolve_rules_spec rules paths tb0 h) as Hs.
  destruct (resolve_rules rules paths tb0 h) as [[tb| |e] h']; [|done|].
  - destruct Hs as [-> _]. eauto.
  - destruct Hs as [_ (rule & branches & Hin & Hn & _)]. by destruct (Hok _ _ Hin).
Qed.
End Rules.

(** C4. Rule resolution adds the branches of a rule to the candidate set
    exactly when the set of changed paths is not empty and every changed
    path matches the rule's pattern: the set it yields holds the branches
    it started from (those of the labels) and the branches of such rules,
    and nothing else; it yields a set whenever every pattern compiles; and
    on an empty set of changed paths that set is the one it started from,
    so no branch is rule-derived. *)
Theorem rule_targets_iff_all_paths_match `{Re}
    (rules : list (string * list string)) (paths tb0 : gset string) (h : history) :
  (∀ rule branches, (rule, branches) ∈ rules → re_compile rule ≠ None) →
  ∃ tb,
    resolve_rules rules paths tb0 h = (Val tb, h)
    ∧ (∀ b, b ∈ tb ↔
         b ∈ tb0
         ∨ ∃ rule branches p,
             (rule, branches) ∈ rules ∧ re_compile rule = Some p ∧ b ∈ branches
             ∧ paths ≠ ∅ ∧ ∀ f, f ∈ paths → pattern_match p f = true)
    ∧ (paths = ∅ → tb = tb0).
Proof.
  intros Hok. destruct (resolve_rules_total rules paths tb0 h Hok) as [tb Hrun].
  exists tb. split; [done|].
  pose proof (resolve_rules_spec rules paths tb0 h) as Hs. rewrite Hrun in Hs.
  destruct Hs as [_ Hs]. split; [exact Hs|].
  intros ->. apply set_eq. intros b. rewrite Hs. split; [|by left].
  intros [?|(rule & branches & p & _ & _ & _ & Hne & _)]; done.
Qed.

Lemma extend_cons (e : event) (l evs h : list event) :
  l = evs ++ h → e :: l = (e :: evs) ++ h.
Proof. by intros ->. Qed.

(** Splits a history [e1 :: ... :: en :: h] into the new events and [h]. *)
Ltac split_history :=
  repeat apply extend_cons; symmetry; apply app_nil_l.

Ltac give_run :=
  eexists _, _; split; [apply (f_equal2 pair); [reflexivity | split_history] |].

(** Puts the exit statuses found by case analysis back into the events. *)
Ltac use_statuses :=
  repeat match goal with
         | H : negb _ = false |- _ => apply negb_false_iff in H
         | H : negb _ = true |- _ => apply negb_true_iff in H
         end;
  repeat match goal with
         | H : (_ =? 0) = _ |- _ => rewrite ?H; clear H
         end.

Lemma stopped_at_failure_here after e before :
  step_failed e = true → forallb (λ e, negb (is_step e)) after = true →
  stopped_at_failure (after ++ e :: before).
Proof. intros. by exists after, e, before. Qed.

Lemma stopped_at_failure_more more evs :
  forallb (λ e, negb (is_step e)) more = true →
  stopped_at_failure evs → stopped_at_failure (more ++ evs).
Proof.
  intros Hmore (after & e & before & -> & He & Hafter).
  exists (more ++ after), e, before. split; [by rewrite <- (assoc_L (++))|].
  split; [done|]. by apply forallb_app_true.
Qed.

Lemma stopped_at_failure_earlier evs earlier :
  stopped_at_failure evs → stopped_at_failure (evs ++ earlier).
Proof.
  intros (after & e & before & -> & He & Hafter).
  exists after, e, (before ++ earlier). split; [|done].
  by rewrite <- (assoc_L (++)).
Qed.

Lemma stopped_at_failure_failed evs :
  stopped_at_failure evs → existsb step_failed evs = true.
Proof.
  intros (after & e & before & -> & He & _).
  rewrite existsb_app. simpl. rewrite He. by rewrite orb_true_r.
Qed.

Section PublishBranch.
Import PyStr.
Context (w : World).
Variables (merge_commit source_branch : string).
Variables (strategy project_name pr_project_name : string).
Variable cr : ChangeRecord.

(** The exits of lines 329-383: without a failed step the run of events
    is clean; with one, the flag [failed] is set and nothing more is
    attempted. *)
Lemma create_and_apply_spec tbranch :
  post (create_and_apply w merge_commit strategy cr tbranch)
    (λ r evs,
       ∃ failed, r = Val failed
       ∧ (existsb step_failed evs = false
          ∨ (failed = true ∧ stopped_at_failure evs))).
Proof.
  intros h. unfold create_and_apply, apply_commit, try_except_else, bind, call_api, git, log, ret.
  repeat case_match; simplify_eq; give_run; eexists; (split; [reflexivity|]).
  all: use_statuses; unfold amend_command; simpl.
  all: try (left; reflexivity).
  all: right; split; [reflexivity|].
  all: first
    [ apply (stopped_at_failure_here [_]); reflexivity
    | apply (stopped_at_failure_here [_; _]); reflexivity ].
Qed.

Lemma open_request_spec tbranch o :
  post (open_request w merge_commit source_branch pr_project_name cr tbranch o)
    (λ r evs,
       (existsb step_failed evs = false ∧ ∀ o', r = Val o' → o' = add_good tbranch o)
       ∨ (stopped_at_failure evs
          ∧ r = Val (add_failed (tbranch, merge_commit,
                                 open_pr_hint merge_commit pr_project_name tbranch) o))).
Proof.
  intros h. unfold open_request, try_except_else, bind, call_api, log, ret.
  repeat case_match; simplify_eq; give_run; simpl.
  all: try (left; split; [reflexivity | by intros ? [= <-]]).
  right. split; [|reflexivity].
  apply (stopped_at_failure_here [_]); reflexivity.
Qed.

Lemma tbranch_excluded_never target_branches_exclude tbranch :
  tbranch_excluded target_branches_exclude tbranch = false.
Proof.
  unfold tbranch_excluded. by induction (elements target_branches_exclude).
Qed.
End PublishBranch.

Section Contains.
Import PyStr.

Lemma append_assoc (a b c : string) : (a +:+ b) +:+ c = a +:+ b +:+ c.
Proof.
  induction a as [|x a IH]; [reflexivity|].
  change (String x ((a +:+ b) +:+ c) = String x (a +:+ b +:+ c)). by f_equal.
Qed.

Lemma append_empty_r (a : string) : a +:+ EmptyString = a.
Proof.
  induction a as [|x a IH]; [reflexivity|].
  change (String x (a +:+ EmptyString) = String x a). by f_equal.
Qed.

Lemma contains_middle (a b c : string) : contains (a +:+ b +:+ c) b.
Proof. by exists a, c. Qed.

Lemma contains_append_l (s x y : string) : contains s x → contains (s +:+ y) x.
Proof.
  intros (a & b & ->). exists a, (b +:+ y). by rewrite !append_assoc.
Qed.

Lemma contains_append_r (s x y : string) : contains s x → contains (y +:+ s) x.
Proof.
  intros (a & b & ->). exists (y +:+ a), b. by rewrite !append_assoc.
Qed.

Lemma contains_start (a b : string) : contains (a +:+ b) a.
Proof. by exists EmptyString, b. Qed.

Lemma contains_end (a b : string) : contains (a +:+ b) b.
Proof.
  exists a, EmptyString. by rewrite append_empty_r.
Qed.

Variables (merge_commit source_branch project_name pr_project_name : string).
Variable cr : ChangeRecord.

Lemma fixer_instructions_name_both tbranch :
  let text := join nl (fixer_instructions merge_commit source_branch project_name cr tbranch) in
  contains text merge_commit ∧ contains text tbranch.
Proof.
  unfold fixer_instructions.
  set (rest := _ :: _ :: _). simpl. destruct rest as [|line rest'] eqn:Hrest; [done|].
  split.
  - apply contains_append_l. apply contains_middle.
  - apply contains_append_l. do 3 apply contains_append_r. apply contains_start.
Qed.

Lemma open_pr_hint_names_both tbranch :
  let text := open_pr_hint merge_commit pr_project_name tbranch in
  contains text merge_commit ∧ contains text tbranch.
Proof.
  unfold open_pr_hint, cherry_pick_branch. split.
  - do 3 apply contains_append_r. apply contains_append_l. apply contains_middle.
  - do 5 apply contains_append_r. apply contains_end.
Qed.
End Contains.

Section PublishBranchSpec.
Import PyStr.
Context (w : World).
Variables (merge_commit source_branch : string).
Variables (strategy project_name pr_project_name : string).
Variable cr : ChangeRecord.
Variable target_branches_exclude : gset bytes.

Abbreviation publish :=
  (publish_branch w merge_commit source_branch strategy project_name pr_project_name
     cr target_branches_exclude).

(** One turn of the publish loop: either no step failed, and then the
    branch joins one of the two sets, or the turn stopped at the failed
    step and the branch is in [failed_branches] with a text that names
    the merge commit and the branch. *)
Lemma publish_branch_spec tbranch o :
  post (publish tbranch o)
    (λ r evs,
       (existsb step_failed evs = false
        ∧ ∀ o', r = Val o' →
            o' = add_good tbranch o ∨ ∃ text, o' = add_failed (tbranch, merge_commit, text) o)
       ∨ (stopped_at_failure evs
          ∧ ∃ text,
              r = Val (add_failed (tbranch, merge_commit, text) o)
              ∧ contains text merge_commit ∧ contains text tbranch)).
Proof.
  unfold publish_branch. rewrite tbranch_excluded_never.
  eapply post_bind; [apply create_and_apply_spec | | |].
  - intros failed evs1 (failed' & [= <-] & Hsteps). destruct failed.
    + eapply post_bind; [apply log_post | | by intros ? [? _] | by intros ? ? [? _]].
      intros [] evs2 [_ ->]. apply post_ret. simpl.
      destruct Hsteps as [Hclean|[_ Hstop]].
      * left. split; [done|]. intros o' [= <-]. eauto.
      * right. split; [by apply (stopped_at_failure_more [_])|].
        eexists. split; [reflexivity|]. apply fixer_instructions_name_both.
    + destruct Hsteps as [Hclean|[? _]]; [|done].
      eapply post_bind; [apply log_post | | by intros ? [? _] | by intros ? ? [? _]].
      intros [] evs2 [_ ->]. eapply post_weaken; [apply open_request_spec|]. simpl.
      intros r evs3 [[Hclean3 Hval]|[Hstop ->]].
      * left. split; [|by intros o' ?; left; apply Hval].
        rewrite !existsb_app, Hclean3, Hclean. reflexivity.
      * right. split.
        -- by do 2 apply stopped_at_failure_earlier.
        -- eexists. split; [reflexivity|]. apply open_pr_hint_names_both.
  - intros evs1 (failed & ? & _). done.
  - intros e evs1 (failed & ? & _). done.
Qed.

Lemma publish_branch_outcome tbranch o h o' h' :
  publish tbranch o h = (Val o', h') →
  o' = add_good tbranch o ∨ ∃ text, o' = add_failed (tbranch, merge_commit, text) o.
Proof.
  intros Hrun. destruct (publish_branch_spec tbranch o h) as (r & evs & Heq & Hq).
  rewrite Hrun in Heq. injection Heq as <- _.
  destruct Hq as [[_ Hval]|[_ (text & [= ->] & _)]]; [by apply Hval | eauto].
Qed.

(** What a run of the loop over [l] can have changed. *)
Lemma publish_loop_frame (l : list string) o h o' h' :
  for_each l publish o h = (Val o', h') →
  failed_branches o ⊆ failed_branches o'
  ∧ good_branches o ⊆ good_branches o'
  ∧ good_branches o' ⊆ good_branches o ∪ list_to_set l
  ∧ ∀ t c text, (t, c, text) ∈ failed_branches o' →
      (t, c, text) ∈ failed_branches o ∨ t ∈ l.
Proof.
  revert o h. induction l as [|x l IH]; intros o h; simpl.
  - intros [= <- <-]. set_solver.
  - unfold bind at 1. destruct (publish x o h) as [[o1| |e] h1] eqn:Hx; [|done..].
    intros Hl. apply IH in Hl as (Hf & Hg & Hg' & Hnames).
    apply publish_branch_outcome in Hx as [->|[text ->]]; simpl in *.
    + split_and!; [done | | |].
      * etrans; [|exact Hg]. apply union_subseteq_l.
      * etrans; [exact Hg'|]. intros b. rewrite !elem_of_union, elem_of_singleton. tauto.
      * intros t c text Hin. destruct (Hnames t c text Hin); [by left | right; by right].
    + split_and!; [ | done | |].
      * etrans; [|exact Hf]. apply union_subseteq_l.
      * etrans; [exact Hg'|]. intros b. rewrite !elem_of_union. tauto.
      * intros t c text' Hin. destruct (Hnames t c text' Hin) as [Hold|?]; [|right; by right].
        apply elem_of_union in Hold as [?|Hnew]; [by left|].
        apply elem_of_singleton in Hnew. injection Hnew as -> -> ->. right; left.
Qed.
End PublishBranchSpec.

Lemma for_each_app {A S} (body : A → S → M S) (l1 l2 : list A) (s s1 : S) (h h1 : history) :
  for_each l1 body s h = (Val s1, h1) →
  for_each (l1 ++ l2) body s h = for_each l2 body s1 h1.
Proof.
  revert s h. induction l1 as [|x l1 IH]; intros s h; simpl.
  - by intros [= <- <-].
  - unfold bind. destruct (body x s h) as [[s'| |e] h']; [|done..]. apply IH.
Qed.



(** ** What the phases of [cherryPickPr] can emit *)

Lemma before_report_of_reading mc e : reading mc e = true → before_report e = true.
Proof. destruct e as [c ok|]; [|done]. by destruct c. Qed.

Section PhasesEmit.
Context `{Re} (w : World).
Variables (merge_commit source_branch : string).
Variable target_branch_rules : list (string * list string).
Variables (strategy project_name pr_project_name : string).
Variable dry_run : bool.

Lemma publish_all_emits cr target_branches target_branches_exclude :
  emits before_report
    (publish_all w merge_commit source_branch strategy project_name pr_project_name
       cr target_branches target_branches_exclude).
Proof.
  unfold publish_all, publish_branch, create_and_apply, apply_commit, open_request.
  emits_auto.
Qed.

Lemma plan_emits : emits (reading merge_commit) (plan w merge_commit target_branch_rules).
Proof.
  unfold plan. apply emits_bind.
  { eapply emits_weaken; [apply reading_of_retrieval | apply extract_emits]. }
  intros cr. apply emits_bind.
  { eapply emits_weaken; [|apply scan_labels_emits].
    intros e He. by apply reading_of_retrieval, retrieval_of_log. }
  intros [tb ex]. apply emits_bind; [apply listChangedPackages_emits|].
  intros paths. apply emits_bind; [apply resolve_rules_emits|].
  intros tb'. emits_auto.
Qed.

(** [cherryPickPr] is its plan followed by the three phases that act. *)
Lemma cherryPickPr_plan h :
  cherryPickPr w merge_commit source_branch target_branch_rules strategy
    project_name pr_project_name dry_run h
  = (let* (cr, target_branches, target_branches_exclude) :=
       plan w merge_commit target_branch_rules in
     write_disposition w dry_run cr target_branches;;;
     let* o := publish_all w merge_commit source_branch strategy project_name
                 pr_project_name cr target_branches target_branches_exclude in
     report w cr target_branches o) h.
Proof.
  unfold cherryPickPr, plan, bind, ret.
  repeat (case_match; simplify_eq; try reflexivity).
Qed.
End PhasesEmit.




(** ** Malformed patterns and the disposition *)

Lemma emits_run {A} (P : event → bool) (m : M A) (h h' : history) (r : result A) :
  emits P m → m h = (r, h') → ∃ evs, h' = evs ++ h ∧ forallb P evs = true.
Proof.
  intros Hm Hrun. destruct (Hm h) as (r' & evs & Heq & Hp).
  rewrite Hrun in Heq. injection Heq as _ ->. eauto.
Qed.

(** C2, as the code has it. A malformed pattern is not skipped:
    [re.compile] raises at its rule, once the rules before it in the table
    have been evaluated, and no later rule is looked at; the exception
    leaves [cherryPickPr], whose calls up to there were all reads, so no
    label has been written and nothing has been published. *)
Theorem malformed_pattern_raises `{Re} (w : World)
    (merge_commit source_branch : string)
    (rules_before rules_after : list (string * list string))
    (rule : string) (branches : list string)
    (strategy project_name pr_project_name : string) (dry_run : bool)
    (cr : ChangeRecord) (tb0 : gset string) (ex : gset bytes) (paths : gset string)
    (h h1 h2 h3 : history) :
  extract w merge_commit h = (Val cr, h1) →
  scan_labels (labels cr) h1 = (Val (tb0, ex), h2) →
  listChangedPackages w (PR_IID cr) h2 = (Val paths, h3) →
  (∀ r bs, (r, bs) ∈ rules_before → re_compile r ≠ None) →
  re_compile rule = None →
  resolve_rules (rules_before ++ (rule, branches) :: rules_after) paths tb0 h3
    = (Raised (ReError rule), h3)
  ∧ ∃ evs,
      cherryPickPr w merge_commit source_branch
        (rules_before ++ (rule, branches) :: rules_after)
        strategy project_name pr_project_name dry_run h
      = (Raised (ReError rule), evs ++ h)
      ∧ forallb (reading merge_commit) evs = true.
Proof.
  intros Hex Hscan Hfiles Hbefore Hrule.
  assert (Hres : resolve_rules (rules_before ++ (rule, branches) :: rules_after) paths tb0 h3
                 = (Raised (ReError rule), h3)).
  { destruct (resolve_rules_total rules_before paths tb0 h3 Hbefore) as [tb Htb].
    unfold resolve_rules in *. rewrite (for_each_app _ _ _ _ _ _ _ Htb).
    simpl. unfold bind, rule_step. by rewrite Hrule. }
  split; [exact Hres|].
  destruct (emits_run _ _ _ _ _ (extract_emits w merge_commit) Hex) as (evs1 & -> & H1).
  destruct (emits_run _ _ _ _ _ (scan_labels_emits (labels cr)) Hscan) as (evs2 & -> & H2).
  destruct (emits_run _ _ _ _ _ (listChangedPackages_emits w merge_commit (PR_IID cr)) Hfiles)
    as (evs3 & -> & H3).
  exists (evs3 ++ evs2 ++ evs1). split.
  - unfold cherryPickPr. unfold bind at 1. rewrite Hex.
    unfold bind at 1. rewrite Hscan. unfold bind at 1. rewrite Hfiles.
    unfold bind at 1. rewrite Hres. by rewrite <- !(assoc_L (++)).
  - rewrite !forallb_app, H3. simpl. apply andb_true_iff. split.
    + eapply forallb_impl; [|exact H2].
      intros e He. by apply reading_of_retrieval, retrieval_of_log.
    + eapply forallb_impl; [|exact H1]. apply reading_of_retrieval.
Qed.

Lemma disposition_decide (target_branches : gset string) :
  disposition target_branches
  = if decide (target_branches = ∅) then "sweep:ignore" else "sweep:done".
Proof.
  unfold disposition. destruct (decide (target_branches = ∅)) as [->|Hne].
  - by rewrite elements_empty.
  - destruct (elements target_branches) eqn:Hel; [|done].
    destruct Hne. apply leibniz_equiv. by apply elements_empty_iff.
Qed.

Lemma filter_none {A} (P : A → bool) (l : list A) :
  forallb (λ x, negb (P x)) l = true → List.filter P l = [].
Proof.
  induction l as [|x l IH]; [done|]. simpl.
  intros [Hx Hl]%andb_true_iff. apply negb_true_iff in Hx. rewrite Hx. auto.
Qed.

Lemma after_disposition_emits (w : World)
    (merge_commit source_branch strategy project_name pr_project_name : string)
    (cr : ChangeRecord) (tb : gset string) (ex : gset bytes) :
  emits (λ e, negb (is_set_labels e))
    (let* o := publish_all w merge_commit source_branch strategy project_name
                 pr_project_name cr tb ex in
     report w cr tb o).
Proof.
  apply emits_bind.
  - eapply emits_weaken; [|apply publish_all_emits].
    intros e. unfold before_report. by intros [? _]%andb_true_iff.
  - intros o. unfold report, post_summary. emits_auto.
Qed.

(** C3, as the code has it. When a run without the dry-run flag reaches
    line 299 (the record was not stopped by its labels and the plan was
    made: [target_branches] holds the explicit inclusions and the
    rule-derived branches, nothing subtracted), it calls [set_labels] on
    the originating request exactly once, with the labels of the request and
    one more: [sweep:ignore] when [target_branches] is empty, [sweep:done]
    otherwise. The exclusion set has no part in the choice. *)
Theorem disposition_from_targets_before_exclusion `{Re} (w : World)
    (merge_commit source_branch : string) (target_branch_rules : list (string * list string))
    (strategy project_name pr_project_name : string)
    (cr : ChangeRecord) (target_branches : gset string) (target_branches_exclude : gset bytes)
    (h h1 : history) :
  plan w merge_commit target_branch_rules h
    = (Val (cr, target_branches, target_branches_exclude), h1) →
  ∃ r evs ok,
    cherryPickPr w merge_commit source_branch target_branch_rules strategy
      project_name pr_project_name false h = (r, evs ++ h)
    ∧ List.filter is_set_labels evs
      = [Called (SetLabels (PR_IID cr)
                   (labels cr ∪ {[ if decide (target_branches = ∅)
                                   then "sweep:ignore" else "sweep:done" ]})) ok].
Proof.
  intros Hplan.
  destruct (emits_run _ _ _ _ _ (plan_emits w merge_commit target_branch_rules) Hplan)
    as (evs1 & -> & H1).
  assert (Hnone : List.filter is_set_labels evs1 = []).
  { apply filter_none. eapply forallb_impl; [|exact H1].
    intros e He. apply before_report_of_reading in He.
    unfold before_report in He. by apply andb_true_iff in He as [? _]. }
  rewrite cherryPickPr_plan. unfold bind at 1. rewrite Hplan.
  unfold bind at 1, write_disposition, call_api. rewrite <- disposition_decide.
  set (new_labels := labels cr ∪ {[disposition target_branches]}).
  destruct (pull_set_labels w (evs1 ++ h) (PR_IID cr) new_labels) as [[]|message].
  - destruct (after_disposition_emits w merge_commit source_branch strategy project_name
                pr_project_name cr target_branches target_branches_exclude
                (Called (SetLabels (PR_IID cr) new_labels) true :: evs1 ++ h))
      as (r & evs2 & -> & H2).
    exists r, (evs2 ++ Called (SetLabels (PR_IID cr) new_labels) true :: evs1), true.
    split; [by rewrite <- (assoc_L (++))|].
    rewrite List.filter_app, (filter_none _ _ H2). simpl. by rewrite Hnone.
  - exists (Raised (GithubException message)),
      (Called (SetLabels (PR_IID cr) new_labels) false :: evs1), false.
    split; [done|]. simpl. by rewrite Hnone.
Qed.

(** ** The code on concrete records *)

(** C1. A pull request labelled [sweep:from B], [alsoTargeting:B] and
    [alsoTargeting:C]: the label loop puts the bytes of [B] in the
    exclusion set and the strings [B] and [C] in the target set, so the
    final target set of the specification is [{C}]; the publish loop
    compares the bytes with the strings, finds no exclusion, and opens pull
    requests into [C] and into [B]. *)
Theorem swept_from_branch_is_published_again :
  scan_labels (list_to_set ["sweep:from B"; "alsoTargeting:B"; "alsoTargeting:C"]) []
  = (Val ({["B"; "C"]}, {[Bytes "B"]}),
     [Logged INFO "also targets the following branches: %s -> add to target list" ["B"];
      Logged INFO "also targets the following branches: %s -> add to target list" ["C"];
      Logged INFO "was swept from branch: %s -> excluding %s from the target list" ["B"; "B"]])
  ∧ final_target_set {["B"; "C"]} {[Bytes "B"]} = {["C"]}
  ∧ pull_requests
      (Sample.sweep
         (Sample.world ["sweep:from B"; "alsoTargeting:B"; "alsoTargeting:C"] []
            Sample.nothing_fails)
         [] "cherry-pick" false).2
    = ["C"; "B"].
Proof. split_and!; vm_compute; reflexivity. Qed.

(** C6. The label [alsoTargeting:] with nothing after the colon: [split]
    gives two parts, the second empty, so the branch with the empty name
    joins the target set; the warning of line 274 is not logged, and a pull
    request into the branch with the empty name is opened. A value with a
    colon in it is the one that is dropped with the warning. *)
Theorem empty_also_targeting_adds_empty_branch :
  scan_labels (list_to_set ["alsoTargeting:"]) []
  = (Val ({[EmptyString]}, ∅),
     [Logged INFO "also targets the following branches: %s -> add to target list"
        [EmptyString]])
  ∧ pull_requests
      (Sample.sweep (Sample.world ["alsoTargeting:"] [] Sample.nothing_fails)
         [] "cherry-pick" false).2
    = [EmptyString]
  ∧ scan_labels (list_to_set ["alsoTargeting:rel:7"]) []
    = (Val (∅, ∅), [Logged WARNING "has empty 'alsoTargeting:' label -> ignore" []]).
Proof. split_and!; vm_compute; reflexivity. Qed.

(** C10. A pull request labelled [sweep:from B] and [alsoTargeting:B]:
    the branch [B] is in the exclusion set by name, and the publish loop
    still processes it and puts it in [good_branches]. *)
Theorem excluded_branch_ends_in_good_branches :
  let w := Sample.world ["sweep:from B"; "alsoTargeting:B"] [] Sample.nothing_fails in
  ∃ cr h1 o h2,
    plan w "abc123" [] [] = (Val (cr, {["B"]}, {[Bytes "B"]}), h1)
    ∧ name_excluded {[Bytes "B"]} "B"
    ∧ publish_all w "abc123" "upstream/master" "cherry-pick" "org/proj" "bot/proj"
        cr {["B"]} {[Bytes "B"]} h1 = (Val o, h2)
    ∧ good_branches o = {["B"]}
    ∧ failed_branches o = ∅.
Proof.
  intros w. eexists _, _, _, _. split_and!.
  - vm_compute. reflexivity.
  - unfold name_excluded. apply (bool_decide_unpack _). vm_compute. exact I.
  - vm_compute. reflexivity.
  - vm_compute. reflexivity.
  - vm_compute. reflexivity.
Qed.

(** C2, as stated, fails: with a malformed first pattern the second rule,
    whose pattern matches the changed file, is never evaluated; rule
    resolution raises, the exception leaves [cherryPickPr], and nothing is
    swept to [rel-8]. *)
Lemma malformed_pattern_not_skipped :
  let rules := [("*.py", ["rel-7"]); ("^Detector/.*", ["rel-8"])] in
  re_compile "*.py" = None
  ∧ (∃ p, re_compile "^Detector/.*" = Some p ∧ pattern_match p "Detector/x.cpp" = true)
  ∧ resolve_rules rules {["Detector/x.cpp"]} ∅ [] = (Raised (ReError "*.py"), [])
  ∧ (Sample.sweep (Sample.world [] ["Detector/x.cpp"] Sample.nothing_fails)
       rules "cherry-pick" false).1 = Raised (ReError "*.py")
  ∧ pull_requests
      (Sample.sweep (Sample.world [] ["Detector/x.cpp"] Sample.nothing_fails)
         rules "cherry-pick" false).2 = [].
Proof.
  intros rules. split_and!; try (vm_compute; reflexivity).
  eexists. split; vm_compute; reflexivity.
Qed.

(** C3, as stated, fails: the only target branch is excluded, so the final
    target set of the specification is empty, and the label written is
    [sweep:done]. *)
Lemma excluded_branch_still_counts :
  let pr_labels := ["sweep:from B"; "alsoTargeting:B"] in
  let w := Sample.world pr_labels [] Sample.nothing_fails in
  (∃ cr h1, plan w "abc123" [] [] = (Val (cr, {["B"]}, {[Bytes "B"]}), h1))
  ∧ final_target_set {["B"]} {[Bytes "B"]} = ∅
  ∧ List.filter is_set_labels (Sample.sweep w [] "cherry-pick" false).2
    = [Called (SetLabels 12 (list_to_set ("sweep:done" :: pr_labels))) true].
Proof.
  intros pr_labels w. split_and!.
  - eexists _, _. vm_compute. reflexivity.
  - vm_compute. reflexivity.
  - vm_compute. reflexivity.
Qed.

(** C4, as stated, fails for a rule table that holds a pattern which does
    not compile. On an empty set of changed paths rule resolution does not
    give an empty set of rule-derived targets: it raises, and the target
    [rel-9] that a label asks for is not swept either. On a set of changed
    paths that the second rule's pattern matches, the branch of that
    rule is not added: resolution has raised at the first rule. *)
Lemma rule_targets_need_compiling_patterns :
  let rules := [("*.py", ["rel-7"]); ("^Detector/.*", ["rel-8"])] in
  let labelled := Sample.world ["alsoTargeting:rel-9"] [] Sample.nothing_fails in
  resolve_rules rules ∅ ∅ [] = (Raised (ReError "*.py"), [])
  ∧ (Sample.sweep labelled rules "cherry-pick" false).1 = Raised (ReError "*.py")
  ∧ pull_requests (Sample.sweep labelled rules "cherry-pick" false).2 = []
  ∧ (∃ p, re_compile "^Detector/.*" = Some p ∧ pattern_match p "Detector/x.cpp" = true)
  ∧ resolve_rules rules {["Detector/x.cpp"]} ∅ [] = (Raised (ReError "*.py"), []).
Proof.
  intros rules labelled. split_and!; try (vm_compute; reflexivity).
  eexists. split; vm_compute; reflexivity.
Qed.


(** ** The theorems at concrete records *)

Lemma swept_record_is_left_alone_witness :
  marked_swept (list_to_set ["bug"; "sweep:done"])
  ∧ ∃ evs,
      cherryPickPr (Sample.world ["bug"; "sweep:done"] [] Sample.nothing_fails)
        "abc123" "upstream/master" [("^Detector/.*", ["rel-7"])] "cherry-pick"
        "org/proj" "bot/proj" false []
      = (Returned, evs ++ [])
      ∧ forallb (retrieval "abc123") evs = true.
Proof.
  assert (Hm : marked_swept (list_to_set ["bug"; "sweep:done"])).
  { left. apply (bool_decide_unpack _). vm_compute. exact I. }
  split; [exact Hm|].
  eapply (swept_record_is_left_alone
            (Sample.world ["bug"; "sweep:done"] [] Sample.nothing_fails)
            "abc123" "upstream/master" [("^Detector/.*", ["rel-7"])] "cherry-pick"
            "org/proj" "bot/proj" false []).
  - vm_compute. reflexivity.
  - exact Hm.
Defined.

Lemma rule_targets_iff_all_paths_match_witness :
  let rules := [("^Detector/.*", ["rel-7"])] in
  (∀ rule branches, (rule, branches) ∈ rules → re_compile rule ≠ None)
  ∧ (∃ tb,
       resolve_rules rules {["Detector/Calo/x.cpp"; "Detector/Track/y.cpp"]} ∅ []
       = (Val tb, [])
       ∧ "rel-7" ∈ tb)
  ∧ (∃ tb,
       resolve_rules rules {["Detector/x.cpp"; "Core/y.cpp"]} ∅ [] = (Val tb, [])
       ∧ "rel-7" ∉ tb).
Proof.
  intros rules.
  assert (Hok : ∀ rule branches, (rule, branches) ∈ rules → re_compile rule ≠ None).
  { intros rule branches Hin. apply list_elem_of_singleton in Hin.
    injection Hin as -> ->. vm_compute. discriminate. }
  split; [exact Hok|]. split.
  - destruct (rule_targets_iff_all_paths_match rules
                {["Detector/Calo/x.cpp"; "Detector/Track/y.cpp"]} ∅ [] Hok)
      as (tb & Hrun & Hiff & _).
    exists tb. split; [exact Hrun|]. apply Hiff. right.
    exists "^Detector/.*", ["rel-7"], (default [] (Sample.compile "^Detector/.*")).
    split_and!; [left | reflexivity | left | |].
    + intros Hempty. apply (f_equal elements) in Hempty. vm_compute in Hempty. discriminate.
    + intros f Hf. apply elem_of_union in Hf as [Hf|Hf];
        apply elem_of_singleton in Hf; subst f; vm_compute; reflexivity.
  - destruct (rule_targets_iff_all_paths_match rules
                {["Detector/x.cpp"; "Core/y.cpp"]} ∅ [] Hok)
      as (tb & Hrun & Hiff & _).
    exists tb. split; [exact Hrun|]. rewrite Hiff.
    intros [Hin|(rule & branches & p & Hin & Hc & _ & _ & Hall)].
    + by apply not_elem_of_empty in Hin.
    + apply list_elem_of_singleton in Hin. injection Hin as -> ->.
      vm_compute in Hc. injection Hc as <-.
      specialize (Hall "Core/y.cpp"). vm_compute in Hall.
      assert (false = true) by (apply Hall; apply (bool_decide_unpack _); vm_compute; exact I).
      discriminate.
Defined.


Lemma malformed_pattern_raises_witness :
  let w := Sample.world [] ["Detector/x.cpp"] Sample.nothing_fails in
  re_compile "*.py" = None
  ∧ ∃ evs,
      cherryPickPr w "abc123" "upstream/master"
        ([("^Detector/.*", ["rel-8"])] ++ [("*.py", ["rel-7"]); ("^Core/.*", ["rel-6"])])
        "cherry-pick" "org/proj" "bot/proj" false []
      = (Raised (ReError "*.py"), evs ++ [])
      ∧ forallb (reading "abc123") evs = true.
Proof.
  intros w. split; [reflexivity|].
  epose proof (malformed_pattern_raises w "abc123" "upstream/master"
                 [("^Detector/.*", ["rel-8"])] [("^Core/.*", ["rel-6"])] "*.py" ["rel-7"]
                 "cherry-pick" "org/proj" "bot/proj" false _ _ _ _ [] _ _ _) as Hthm.
  edestruct Hthm as [_ Hrun].
  - vm_compute. reflexivity.
  - vm_compute. reflexivity.
  - vm_compute. reflexivity.
  - intros r bs Hin. apply list_elem_of_singleton in Hin.
    injection Hin as -> ->. vm_compute. discriminate.
  - reflexivity.
  - exact Hrun.
Defined.

Lemma disposition_from_targets_before_exclusion_witness :
  let w := Sample.world ["bug"] ["Detector/x.cpp"] Sample.nothing_fails in
  ∃ r evs ok new_labels,
    cherryPickPr w "abc123" "upstream/master" [("^Detector/.*", ["rel-8"])]
      "cherry-pick" "org/proj" "bot/proj" false [] = (r, evs ++ [])
    ∧ List.filter is_set_labels evs = [Called (SetLabels 12 new_labels) ok]
    ∧ "sweep:done" ∈ new_labels.
Proof.
  intros w.
  epose proof (disposition_from_targets_before_exclusion w "abc123" "upstream/master"
                 [("^Detector/.*", ["rel-8"])] "cherry-pick" "org/proj" "bot/proj"
                 _ _ _ [] _) as Hthm.
  edestruct Hthm as (r & evs & ok & Hrun & Hlabels).
  - vm_compute. reflexivity.
  - exists r, evs, ok. eexists. split_and!; [exact Hrun | exact Hlabels |].
    apply (bool_decide_unpack _). vm_compute. exact I.
Defined.

(** ** Running a command, with retries *)

Lemma retry_spec (w : World) (cmd : string) (n : nat) (last : option (Z * string * string))
    (h : history) :
  ∃ r evs,
    retry w cmd n last h = (Val r, evs ++ h)
    ∧ (length evs ≤ n)%nat
    ∧ match evs with
      | [] => r = last ∧ n = 0%nat
      | e :: earlier =>
          ∃ status out err,
            r = Some (status, out, err)
            ∧ run_git w (earlier ++ h) cmd = (status, out, err)
            ∧ e = Called (Git cmd) (status =? 0)
            ∧ earlier = replicate (length earlier) (Called (Git cmd) false)
            ∧ (status ≠ 0 → length evs = n)
      end.
Proof.
  revert last h. induction n as [|n IH]; intros last h; simpl.
  - exists last, []. done.
  - unfold bind at 1, git at 1.
    destruct (run_git w h cmd) as [[status out] err] eqn:Hgit.
    destruct (status =? 0) eqn:Hs.
    + exists (Some (status, out, err)), [Called (Git cmd) true].
      split_and!; [done | simpl; lia |]. exists status, out, err.
      rewrite Hs. split_and!; try done. intros Hne. apply Z.eqb_eq in Hs. done.
    + destruct (IH (Some (status, out, err)) (Called (Git cmd) false :: h))
        as (r & evs & Hrun & Hlen & Hevs).
      exists r, (evs ++ [Called (Git cmd) false]).
      split; [by rewrite Hrun, <- (assoc_L (++))|].
      split; [rewrite length_app; simpl; lia|].
      destruct evs as [|e earlier]; simpl.
      * destruct Hevs as [-> ->]. exists status, out, err. rewrite Hs. done.
      * destruct Hevs as (status' & out' & err' & -> & Hgit' & -> & Hrep & Hlast).
        exists status', out', err'. split_and!; [done | | done | |].
        -- by rewrite <- (assoc_L (++)).
        -- rewrite length_app. simpl. rewrite Nat.add_1_r.
           rewrite replicate_S_end. by rewrite <- Hrep.
        -- intros Hne. rewrite length_app. simpl in *. rewrite Nat.add_1_r.
           f_equal. by apply Hlast.
Qed.

(** X1. [executeCommandWithRetry] with a positive [max_attempts] runs
    the command until it exits with status 0, at most [max_attempts]
    times: every attempt before the last one failed, what is returned is
    the status and the output of the last attempt, and a non-zero status
    is returned only after [max_attempts] failed attempts. *)
Theorem retry_stops_at_first_success (w : World) (cmd : string) (max_attempts : Z)
    (h : history) :
  1 ≤ max_attempts →
  ∃ status out err earlier,
    executeCommandWithRetry w cmd max_attempts h
      = (Val (Some (status, out, err)), Called (Git cmd) (status =? 0) :: earlier ++ h)
    ∧ run_git w (earlier ++ h) cmd = (status, out, err)
    ∧ earlier = replicate (length earlier) (Called (Git cmd) false)
    ∧ Z.of_nat (length earlier) < max_attempts
    ∧ (status ≠ 0 → Z.of_nat (length earlier) + 1 = max_attempts).
Proof.
  intros Hpos. unfold executeCommandWithRetry.
  destruct (retry_spec w cmd (Z.to_nat max_attempts) None h) as (r & evs & Hrun & Hlen & Hevs).
  destruct evs as [|e earlier].
  - destruct Hevs as [_ Hz]. lia.
  - destruct Hevs as (status & out & err & -> & Hgit & -> & Hrep & Hlast).
    exists status, out, err, earlier. simpl in *.
    split_and!; [done | done | done | lia |].
    intros Hne. apply Hlast in Hne. lia.
Qed.

(** X2. With [max_attempts] zero or negative the command is never run:
    nothing is called, and the [return] of line 59 finds [status], [out]
    and [err] unbound. *)
Theorem no_attempt_leaves_result_unbound (w : World) (cmd : string) (max_attempts : Z)
    (h : history) :
  max_attempts ≤ 0 →
  executeCommandWithRetry w cmd max_attempts h = (Val None, h).
Proof.
  intros Hle. unfold executeCommandWithRetry.
  by replace (Z.to_nat max_attempts) with 0%nat by lia.
Qed.

(** With the default [max_attempts=1], the function is one run of the
    command, whatever its status: [git]. *)
Lemma single_attempt_is_git (w : World) (cmd : string) (h : history) :
  executeCommandWithRetry w cmd 1 h = (let* r := git w cmd in ret (Some r)) h.
Proof.
  unfold executeCommandWithRetry. simpl. unfold bind, git.
  destruct (run_git w h cmd) as [[status out] err]. by destruct (status =? 0).
Qed.

(** ** The merge commits of a period *)

Section MergeLogFacts.
Import PyStr MergeLog.

Lemma take_hex_split (line : string) :
  ∃ rest,
    line = take_hex line +:+ rest
    ∧ all_chars is_hex (take_hex line) = true
    ∧ match rest with
      | String c _ => is_hex c = false
      | EmptyString => True
      end.
Proof.
  induction line as [|c line (rest & Heq & Hall & Hrest)]; simpl.
  - by exists EmptyString.
  - destruct (is_hex c) eqn:Hc.
    + exists rest. split_and!; [| by simpl; rewrite Hc | done].
      change (String c line = String c (take_hex line +:+ rest)). by f_equal.
    + exists (String c line). done.
Qed.

Lemma take_hex_unique (hash rest : string) :
  all_chars is_hex hash = true →
  match rest with
  | String c _ => is_hex c = false
  | EmptyString => True
  end →
  take_hex (hash +:+ rest) = hash.
Proof.
  intros Hall Hrest. induction hash as [|c hash IH].
  - change (take_hex rest = EmptyString). destruct rest as [|c rest]; [done|].
    simpl. by rewrite Hrest.
  - simpl in Hall. apply andb_true_iff in Hall as [Hc Hall].
    change (take_hex (String c (hash +:+ rest)) = String c hash).
    simpl. rewrite Hc. f_equal. by apply IH.
Qed.

Lemma match_hash_spec (line hash : string) :
  match_hash line = Some hash ↔ begins_with_hash line hash.
Proof.
  unfold match_hash, begins_with_hash. split.
  - destruct (6 <=? String.length (take_hex line))%nat eqn:Hlen; [|done].
    intros [= <-]. apply Nat.leb_le in Hlen.
    destruct (take_hex_split line) as (rest & Heq & Hall & Hrest).
    exists rest. done.
  - intros (rest & -> & Hlen & Hall & Hrest).
    rewrite take_hex_unique by done.
    apply Nat.leb_le in Hlen. by rewrite Hlen.
Qed.

Lemma hash_loop_spec (lines : list string) (hash_list : gset string) (h : history) :
  ∃ hashes evs,
    for_each lines hash_step hash_list h = (Val hashes, evs ++ h)
    ∧ forallb is_log evs = true
    ∧ ∀ x, x ∈ hashes ↔ x ∈ hash_list ∨ ∃ line, line ∈ lines ∧ begins_with_hash line x.
Proof.
  revert hash_list h. induction lines as [|line lines IH]; intros hash_list h; simpl.
  - exists hash_list, []. split_and!; [done..|]. intros x. split; [by left|].
    intros [?|(line & Hin & _)]; [done|]. by apply elem_of_nil in Hin.
  - assert (Hstep : ∃ s evs1,
      hash_step line hash_list h = (Val s, evs1 ++ h)
      ∧ forallb is_log evs1 = true
      ∧ ∀ x, x ∈ s ↔ x ∈ hash_list ∨ begins_with_hash line x).
    { unfold hash_step. destruct line as [|c line'].
      - exists hash_list, []. split_and!; [done..|]. intros x. split; [by left|].
        intros [?|(rest & Heq & Hlen & _)]; [done|].
        destruct x; [simpl in Hlen; lia | done].
      - destruct (match_hash (String c line')) as [hash|] eqn:Hm.
        + exists (hash_list ∪ {[hash]}), []. split_and!; [done..|]. intros x.
          rewrite elem_of_union, elem_of_singleton, <- match_hash_spec, Hm.
          split; intros [?|?]; auto; [right; congruence | right; congruence].
        + exists hash_list, [Logged CRITICAL "could not extract merge commit hash from '%s'"
                               [String c line']].
          split_and!; [done..|]. intros x. rewrite <- match_hash_spec, Hm.
          split; [by left | by intros [?|?]]. }
    destruct Hstep as (s & evs1 & Hrun1 & Hlog1 & Hs).
    destruct (IH s (evs1 ++ h)) as (hashes & evs2 & Hrun2 & Hlog2 & Hhashes).
    exists hashes, (evs2 ++ evs1). unfold bind. rewrite Hrun1, Hrun2.
    split_and!; [by rewrite <- (assoc_L (++)) | by apply forallb_app_true |].
    intros x. rewrite Hhashes, Hs. split.
    + intros [[?|?]|(l & Hin & ?)]; [by left | right; exists line; split; [left | done] |].
      right. exists l. split; [by right | done].
    + intros [?|(l & Hin & Hl)]; [by left; left|].
      apply elem_of_cons in Hin as [->|Hin]; [by left; right|].
      right. exists l. done.
Qed.
End MergeLogFacts.

(** X3. [getListOfMergeCommits] runs one command, the [git log] over the
    period, and calls nothing else. When that command fails the function
    returns [None]. When it succeeds the function returns the set of the
    commit hashes the lines of its output start with: a string is in the
    set exactly when some line starts with it, it is made of six or more
    hexadecimal digits, and it is followed in the line by something that
    is no hexadecimal digit. *)
Theorem merge_commits_are_leading_hashes (w : World) (branch since until : string)
    (h : history) :
  let started := Logged INFO "looking for merge commits on '%s' since '%s'" [branch; since] in
  let cmd := MergeLog.merge_log_command branch since until in
  let '(status, out, _) := run_git w (started :: h) cmd in
  ∃ r logged,
    getListOfMergeCommits w branch since until h
      = (Val r, logged ++ Called (Git cmd) (status =? 0) :: started :: h)
    ∧ forallb is_log logged = true
    ∧ (status ≠ 0 → r = None)
    ∧ (status = 0 →
       ∃ hashes,
         r = Some hashes
         ∧ ∀ x, x ∈ hashes ↔
             ∃ line, line ∈ PyStr.split (ascii_of_nat 10) out
                     ∧ MergeLog.begins_with_hash line x).
Proof.
  intros started cmd.
  destruct (run_git w (started :: h) cmd) as [[status out] err] eqn:Hgit.
  unfold getListOfMergeCommits. unfold bind at 1, log at 1.
  unfold bind at 1, git at 1. fold started cmd. rewrite Hgit.
  destruct (status =? 0) eqn:Hs; cbn [negb].
  - apply Z.eqb_eq in Hs.
    destruct (hash_loop_spec (PyStr.split (ascii_of_nat 10) out) ∅
                (Called (Git cmd) true :: started :: h))
      as (hashes & evs & Hrun & Hlog & Hhashes).
    exists (Some hashes), (Logged INFO "found %d merge commits"
                             [PyStr.str_of_int (Z.of_nat (size hashes))] :: evs).
    unfold bind at 1. rewrite Hrun. split_and!; [done | done | done |].
    intros _. exists hashes. split; [done|]. intros x. rewrite Hhashes.
    split; [intros [Hin|?]; [by apply not_elem_of_empty in Hin | done] | by right].
  - apply Z.eqb_neq in Hs.
    exists None, [Logged CRITICAL "failed to retrieve merge commits" []].
    split_and!; [done | done | done | done].
Qed.

(** ** The sweeping rules of a branch *)

Section SplitFacts.
Import PyStr.

Lemma split_no_sep (sep : ascii) (s : string) :
  all_chars (λ c, negb (Ascii.eqb c sep)) s = true → split sep s = [s].
Proof.
  induction s as [|c s IH]; [done|]. simpl.
  intros [Hc Hs]%andb_true_iff. apply negb_true_iff in Hc. rewrite Hc.
  by rewrite (IH Hs).
Qed.

Lemma split_at_sep (sep : ascii) (a b : string) :
  all_chars (λ c, negb (Ascii.eqb c sep)) a = true →
  split sep (a +:+ String sep b) = a :: split sep b.
Proof.
  induction a as [|c a IH].
  - intros _. change (split sep (String sep b) = EmptyString :: split sep b).
    simpl. by rewrite Ascii.eqb_refl.
  - simpl. intros [Hc Ha]%andb_true_iff. apply negb_true_iff in Hc.
    change (split sep (String c (a +:+ String sep b)) = String c a :: split sep b).
    simpl. rewrite Hc. by rewrite (IH Ha).
Qed.

Lemma split_not_nil (sep : ascii) (s : string) : split sep s ≠ [].
Proof.
  destruct s as [|c s]; [done|]. simpl. destruct (Ascii.eqb c sep); [done|].
  by destruct (split sep s).
Qed.

(** The second component of [remote/name] and of [remote/name/...]. *)
Lemma split_second (remote name rest : string) :
  no_slash remote = true → no_slash name = true →
  rest = EmptyString ∨ (∃ rest', rest = "/" +:+ rest') →
  ∃ more, split "/" (remote +:+ "/" +:+ name +:+ rest) = remote :: name :: more.
Proof.
  intros Hr Hn Hrest.
  change (remote +:+ "/" +:+ name +:+ rest) with (remote +:+ String "/" (name +:+ rest)).
  rewrite split_at_sep by done.
  destruct Hrest as [->|[rest' ->]].
  - rewrite append_empty_r. rewrite split_no_sep by done. by exists [].
  - change (name +:+ "/" +:+ rest') with (name +:+ String "/" rest').
    rewrite split_at_sep by done. eauto.
Qed.
End SplitFacts.

Section ConfigurationFacts.
Import PyStr.
Context (w : World) (yaml_safe_load : string → option (option CIConfig)).

Lemma getSweepTargetBranchRules_emits src_branch :
  emits local_only (getSweepTargetBranchRules w yaml_safe_load src_branch).
Proof. unfold getSweepTargetBranchRules. emits_auto. Qed.

Lemma getListOfMergeCommits_emits branch since until :
  emits local_only (getListOfMergeCommits w branch since until).
Proof. unfold getListOfMergeCommits, MergeLog.hash_step. emits_auto. Qed.
End ConfigurationFacts.

(** X4. The rule table of a branch [remote/name], or [remote/name/...],
    is looked up under [name], the second component of the branch name.
    [getSweepTargetBranchRules] runs one command, [git show] of
    [Sweep/config.yaml] on that branch, and returns a rule table only
    when the command succeeded, its output is a YAML mapping with an entry
    [sweep-targets], and that entry has a table with one rule at least
    under [name]: it never returns an empty table. *)
Theorem rules_are_keyed_by_second_component (w : World)
    (yaml_safe_load : string → option (option CIConfig))
    (remote name rest : string) (h : history) :
  let src_branch := remote +:+ "/" +:+ name +:+ rest in
  let cmd := "git show " +:+ src_branch +:+ ":Sweep/config.yaml" in
  no_slash remote = true → no_slash name = true →
  rest = EmptyString ∨ (∃ rest', rest = "/" +:+ rest') →
  ∃ r ok logged,
    getSweepTargetBranchRules w yaml_safe_load src_branch h
      = (Val r, logged ++ Called (Git cmd) ok :: h)
    ∧ forallb is_log logged = true
    ∧ ∀ rules,
        r = Some rules ↔
          rules ≠ []
          ∧ ∃ out err CI_config targets,
              run_git w h cmd = (0, out, err)
              ∧ yaml_safe_load out = Some (Some CI_config)
              ∧ sweep_targets CI_config = Some targets
              ∧ targets !! name = Some rules.
Proof.
  intros src_branch cmd Hr Hn Hrest.
  destruct (split_second remote name rest Hr Hn Hrest) as [more Hsplit].
  fold src_branch in Hsplit.
  unfold getSweepTargetBranchRules. fold cmd. unfold bind at 1, git at 1.
  destruct (run_git w h cmd) as [[status out] err] eqn:Hgit.
  destruct (status =? 0) eqn:Hs; cbn [negb].
  - apply Z.eqb_eq in Hs. subst status.
    destruct (yaml_safe_load out) as [[CI_config|]|] eqn:Hyaml.
    + rewrite Hsplit.
      destruct (sweep_targets CI_config) as [targets|] eqn:Htargets; simpl.
      * destruct (targets !! name) as [[|entry rules']|] eqn:Hlookup.
        -- exists None, true, []. split_and!; [done..|]. intros rules. split; [done|].
           intros (Hne & out' & err' & CI' & targets' & ? & ? & ? & ?). simplify_eq.
        -- eexists (Some (entry :: rules')), true, [_]. split_and!; [done..|].
           intros rules. split.
           ++ intros [= <-]. split; [done|]. by exists out, err, CI_config, targets.
           ++ intros (Hne & out' & err' & CI' & targets' & ? & ? & ? & ?). by simplify_eq.
        -- exists None, true, []. split_and!; [done..|]. intros rules. split; [done|].
           intros (Hne & out' & err' & CI' & targets' & ? & ? & ? & ?). simplify_eq.
      * exists None, true, []. split_and!; [done..|]. intros rules. split; [done|].
        intros (Hne & out' & err' & CI' & targets' & ? & ? & ? & ?). simplify_eq.
    + eexists None, true, [_]. split_and!; [done..|]. intros rules. split; [done|].
      intros (Hne & out' & err' & CI' & targets' & ? & ? & ? & ?). simplify_eq.
    + eexists None, true, [_]. split_and!; [done..|]. intros rules. split; [done|].
      intros (Hne & out' & err' & CI' & targets' & ? & ? & ? & ?). simplify_eq.
  - apply Z.eqb_neq in Hs.
    eexists None, false, [_]. split_and!; [done..|]. intros rules. split; [done|].
    intros (Hne & out' & err' & CI' & targets' & ? & ? & ? & ?). simplify_eq.
Qed.

(** ** The run over a period *)

Lemma post_after_emits {A B} (P : event → bool) (m : M A) (k : A → M B)
    (Q : result B → list event → Prop) :
  emits P m →
  (∀ a, post (k a) (λ r evs2, ∀ evs1, forallb P evs1 = true → Q r (evs2 ++ evs1))) →
  (∀ evs, forallb P evs = true → Q Returned evs ∧ ∀ e, Q (Raised e) evs) →
  post (bind m k) Q.
Proof.
  intros Hm Hk Hstop. eapply post_bind; [exact Hm | | |]; simpl.
  - intros a evs1 H1. eapply post_weaken; [apply Hk|]. simpl. auto.
  - intros evs1 H1. by apply Hstop.
  - intros e evs1 H1. by apply Hstop.
Qed.

Lemma emits_call_statement (P : event → bool) (m : M unit) :
  emits P m → emits P (call_statement m).
Proof.
  intros Hm h. destruct (Hm h) as (r & evs & Hrun & Hp). unfold call_statement. rewrite Hrun.
  destruct r; eauto.
Qed.

Section MainFacts.
Import PyStr.
Context `{Re} (w : World).
Variable yaml_safe_load : string → option (option CIConfig).
Variable get_repo : string → api unit.
Variable args : Args.

Lemma cherryPickPr_emits_anything merge_commit source_branch target_branch_rules strategy
    project_name pr_project_name dry_run :
  emits (λ _, true)
    (cherryPickPr w merge_commit source_branch target_branch_rules strategy
       project_name pr_project_name dry_run).
Proof.
  unfold cherryPickPr, extract, get_pull_handle, scan_labels, check_swept, label_step,
    listChangedPackages, resolve_rules, rule_step, write_disposition, publish_all,
    publish_branch, create_and_apply, apply_commit, open_request, report, post_summary.
  emits_auto.
Qed.

Lemma sweep_loop_emits_anything target_branch_rules PR_list :
  emits (λ _, true) (sweep_loop w args target_branch_rules PR_list).
Proof.
  unfold sweep_loop. apply emits_for_each. intros pr _.
  apply emits_call_statement, cherryPickPr_emits_anything.
Qed.

Lemma sweep_period_exit remote_name :
  post (sweep_period w yaml_safe_load args remote_name)
    (λ r evs, ∀ code, r = Val (Some code) → code = 0 ∧ forallb local_only evs = true).
Proof.
  unfold sweep_period.
  eapply (post_after_emits local_only); [by apply emits_git | | by intros].
  intros [[status out] err]. destruct (negb (status =? 0)).
  { intros h. unfold bind, log, ret. give_run. by intros. }
  eapply (post_after_emits local_only);
    [apply getSweepTargetBranchRules_emits | | by intros].
  intros rules.
  eapply (post_after_emits local_only); [destruct rules as [[|]|]; emits_auto | | by intros].
  intros target_branch_rules.
  eapply (post_after_emits local_only); [apply getListOfMergeCommits_emits | | by intros].
  assert (Hnone : post (no_merge_commits args)
    (λ r evs2, ∀ evs1, forallb local_only evs1 = true →
       ∀ evs0, forallb local_only evs0 = true →
       ∀ evs3, forallb local_only evs3 = true →
       ∀ evs4, forallb local_only evs4 = true →
       ∀ code, r = Val (Some code) →
         code = 0
         ∧ forallb local_only ((((evs2 ++ evs1) ++ evs0) ++ evs3) ++ evs4) = true)).
  { intros h. unfold no_merge_commits, bind, log, ret. give_run.
    intros evs1 H1 evs0 H0 evs3 H3 evs4 H4 code [= <-]. split; [done|].
    rewrite !forallb_app, H1, H0, H3, H4. done. }
  intros [hashes|]; [|exact Hnone].
  destruct (bool_decide (hashes = ∅)); [exact Hnone|].
  eapply (post_after_emits (λ _, true)); [apply sweep_loop_emits_anything | | by intros].
  intros _ h. unfold ret. give_run. by intros.
Qed.

End MainFacts.

(** X5. [main] reaches [sys.exit(1)] only at its start, before it has
    run any command or called anything but the look-up of the two
    repositories; it reaches [sys.exit(0)] only when there is no merge
    commit to sweep, and then it has run git commands only: it has
    neither read from nor written to the forge. *)
Theorem exit_status_tells_how_far_main_got `{Re} (w : World)
    (yaml_safe_load : string → option (option CIConfig)) (get_repo : string → api unit)
    (args : Args) (h : history) :
  ∃ r evs,
    main w yaml_safe_load get_repo args h = (r, evs ++ h)
    ∧ ∀ code, r = Val (Some code) →
        (code = 1 ∧ forallb is_log evs = true)
        ∨ (code = 0 ∧ forallb local_only evs = true).
Proof.
  revert h.
  change (post (main w yaml_safe_load get_repo args)
    (λ r evs, ∀ code, r = Val (Some code) →
       (code = 1 ∧ forallb is_log evs = true)
       ∨ (code = 0 ∧ forallb local_only evs = true))).
  unfold main.
  eapply (post_after_emits is_log); [destruct (args_dry_run args); emits_auto | | by intros].
  assert (Hone : ∀ m : M (option Z),
    (∀ h, ∃ evs, m h = (Val (Some 1), evs ++ h) ∧ forallb is_log evs = true) →
    post m (λ r evs2, ∀ evs1, forallb is_log evs1 = true →
      ∀ code, r = Val (Some code) →
        (code = 1 ∧ forallb is_log (evs2 ++ evs1) = true)
        ∨ (code = 0 ∧ forallb local_only (evs2 ++ evs1) = true))).
  { intros m Hm h. destruct (Hm h) as (evs & -> & Hlog). eexists _, _. split; [done|].
    intros evs1 H1 code [= <-]. left. split; [done|]. by apply forallb_app_true. }
  intros _. destruct (PyStr.split "/" (args_branch args)) as [|remote_name [|second more]].
  - apply Hone. intros h. by eexists [_; _; _].
  - apply Hone. intros h. by eexists [_; _; _].
  - destruct (get_repo (args_project_name args)) as [[]|message].
    2: { apply Hone. intros h. by eexists [_]. }
    destruct (get_repo (args_pr_project_name args)) as [[]|message].
    2: { apply Hone. intros h. by eexists [_]. }
    eapply (post_after_emits local_only); [by apply emits_git | | by intros].
    intros _.
    eapply (post_after_emits local_only); [by apply emits_git | | by intros].
    intros _.
    eapply (post_after_emits local_only); [by apply emits_log | | by intros].
    intros _. eapply post_weaken; [apply sweep_period_exit|]. simpl.
    intros r evs Hexit evs1 H1 evs2 H2 evs3 H3 evs4 H4 code Hr.
    destruct (Hexit code Hr) as [-> Hlocal]. right. split; [done|].
    rewrite !forallb_app, Hlocal, H1, H2, H3. simpl.
    eapply forallb_impl; [|exact H4]. by intros [c ok|].
Qed.

(** X6. One turn of the loop of [main] over the merge commits. When
    [cherryPickPr] raises an exception for a merge commit, nothing
    catches it: the loop ends there with that exception, and the merge
    commits that come after it are not swept. When [cherryPickPr] returns,
    early or at its end, the loop goes on with the next merge commit. *)
Theorem uncaught_exception_ends_the_sweep `{Re} (w : World) (args : Args)
    (target_branch_rules : list (string * list string)) (PR_list : gset string)
    (swept to_do : list string) (pr : string) (h h1 h2 : history) (r : result unit) :
  let turn := λ (pr : string) (_ : unit),
    call_statement
      (cherryPickPr w pr (args_branch args) target_branch_rules (args_strategy args)
         (args_project_name args) (args_pr_project_name args) (args_dry_run args)) in
  elements PR_list = swept ++ pr :: to_do →
  for_each swept turn tt h = (Val tt, h1) →
  cherryPickPr w pr (args_branch args) target_branch_rules (args_strategy args)
    (args_project_name args) (args_pr_project_name args) (args_dry_run args) h1 = (r, h2) →
  sweep_loop w args target_branch_rules PR_list h
    = match r with
      | Raised e => (Raised e, h2)
      | _ => for_each to_do turn tt h2
      end.
Proof.
  intros turn Hel Hswept Hrun. unfold sweep_loop. fold turn. rewrite Hel.
  rewrite (for_each_app _ _ _ _ _ _ _ Hswept). simpl.
  unfold bind at 1, turn at 1, call_statement at 1. rewrite Hrun.
  by destruct r as [[]| |e].
Qed.







(** ** More on the rules and on the publish loop *)

(** X8. The order of the rules in the table does not matter: when every
    pattern compiles, two tables with the same rules in a different order
    give the same set of target branches. *)
Theorem rule_order_does_not_matter `{Re} (rules rules' : list (string * list string))
    (paths tb0 : gset string) (h : history) :
  rules ≡ₚ rules' →
  (∀ rule branches, (rule, branches) ∈ rules → re_compile rule ≠ None) →
  ∃ tb,
    resolve_rules rules paths tb0 h = (Val tb, h)
    ∧ resolve_rules rules' paths tb0 h = (Val tb, h).
Proof.
  intros Hperm Hok.
  assert (Hok' : ∀ rule branches, (rule, branches) ∈ rules' → re_compile rule ≠ None).
  { intros rule branches Hin. apply (Hok rule branches). by rewrite Hperm. }
  destruct (resolve_rules_total rules paths tb0 h Hok) as [tb Hrun].
  destruct (resolve_rules_total rules' paths tb0 h Hok') as [tb' Hrun'].
  pose proof (resolve_rules_spec rules paths tb0 h) as Hs. rewrite Hrun in Hs.
  pose proof (resolve_rules_spec rules' paths tb0 h) as Hs'. rewrite Hrun' in Hs'.
  destruct Hs as [_ Hs]. destruct Hs' as [_ Hs'].
  exists tb. split; [done|]. rewrite Hrun'. do 2 f_equal.
  apply set_eq. intros b. rewrite Hs, Hs'. unfold rule_derived.
  split; (intros [?|(rule & branches & p & Hin & Hrest)]; [by left | right]);
    exists rule, branches, p; (split; [|done]).
  - by rewrite Hperm.
  - by rewrite <- Hperm.
Qed.

Section PublishLoopFacts.
Import PyStr.
Context (w : World).
Variables (merge_commit source_branch : string).
Variables (strategy project_name pr_project_name : string).
Variable cr : ChangeRecord.
Variable target_branches_exclude : gset bytes.

Abbreviation turn :=
  (publish_branch w merge_commit source_branch strategy project_name pr_project_name
     cr target_branches_exclude).

Lemma publish_loop_partition (l : list string) o h o' h' :
  NoDup l →
  (∀ t, t ∈ l → (t ∉ good_branches o) ∧ (∀ c text, (t, c, text) ∉ failed_branches o)) →
  (∀ t c text, (t, c, text) ∈ failed_branches o → t ∉ good_branches o) →
  for_each l turn o h = (Val o', h') →
  (∀ t, t ∈ l → t ∈ good_branches o' ∨ ∃ text, (t, merge_commit, text) ∈ failed_branches o')
  ∧ (∀ t c text, (t, c, text) ∈ failed_branches o' → t ∉ good_branches o').
Proof.
  revert o h. induction l as [|x l IH]; intros o h Hnd Hfresh Hdisj; simpl.
  - intros [= <- <-]. split; [|done]. intros t Hin. by apply elem_of_nil in Hin.
  - apply NoDup_cons in Hnd as [Hx Hnd].
    unfold bind at 1. destruct (turn x o h) as [[o1| |e] h1] eqn:Hturn; [|done..].
    intros Hloop.
    pose proof (publish_loop_frame _ _ _ _ _ _ _ _ _ _ _ _ _ Hloop) as (Hf & Hg & _ & _).
    apply publish_branch_outcome in Hturn.
    destruct (Hfresh x) as [Hxg Hxf]; [left|].
    apply IH in Hloop as [Hall Hdisj']; [| done | |].
    + split; [|done]. intros t [->|Hin]%elem_of_cons; [|by apply Hall].
      destruct Hturn as [->|[text ->]].
      * left. apply Hg. simpl. apply elem_of_union_r. by apply elem_of_singleton.
      * right. exists text. apply Hf. simpl. apply elem_of_union_r. by apply elem_of_singleton.
    + intros t Hin.
      assert (t ≠ x) by (by intros ->).
      destruct (Hfresh t) as [Hng Hnf]; [by right|].
      destruct Hturn as [->|[text ->]]; simpl.
      * split; [|done]. intros [?|Heq]%elem_of_union; [done|].
        by apply elem_of_singleton in Heq.
      * split; [done|]. intros c text' [?|Heq]%elem_of_union.
        -- by apply (Hnf c text').
        -- apply elem_of_singleton in Heq. congruence.
    + intros t c text Hin. destruct Hturn as [->|[text' ->]]; simpl in *.
      * intros [?|Heq]%elem_of_union.
        -- by apply (Hdisj t c text).
        -- apply elem_of_singleton in Heq. subst t. by apply (Hxf c text).
      * apply elem_of_union in Hin as [?|Heq].
        -- by apply (Hdisj t c text).
        -- apply elem_of_singleton in Heq. by simplify_eq.
Qed.

Lemma publish_loop_commit (l : list string) o h o' h' :
  for_each l turn o h = (Val o', h') →
  ∀ t c text, (t, c, text) ∈ failed_branches o' →
    (t, c, text) ∈ failed_branches o ∨ c = merge_commit.
Proof.
  revert o h. induction l as [|x l IH]; intros o h; simpl.
  - intros [= <- <-]. auto.
  - unfold bind at 1. destruct (turn x o h) as [[o1| |e] h1] eqn:Hturn; [|done..].
    intros Hloop t c text Hin. apply publish_branch_outcome in Hturn.
    destruct (IH _ _ Hloop t c text Hin) as [Hin1|?]; [|by right].
    destruct Hturn as [->|[text' ->]]; simpl in Hin1; [by left|].
    apply elem_of_union in Hin1 as [?|Heq%elem_of_singleton]; [by left|].
    right. congruence.
Qed.
End PublishLoopFacts.

(** X9. When the publish loop has run to its end, every target branch is
    in exactly one of the two result sets: each branch of the target set
    is in [good_branches] or has a tuple in [failed_branches], made with
    the merge commit; no branch is in both; and the sets hold no other
    branch. *)
Theorem every_target_ends_in_one_set (w : World)
    (merge_commit source_branch strategy project_name pr_project_name : string)
    (cr : ChangeRecord) (target_branches : gset string) (target_branches_exclude : gset bytes)
    (h h' : history) (o : Outcome) :
  publish_all w merge_commit source_branch strategy project_name pr_project_name
    cr target_branches target_branches_exclude h = (Val o, h') →
  (∀ t, t ∈ target_branches ↔
     t ∈ good_branches o ∨ ∃ c text, (t, c, text) ∈ failed_branches o)
  ∧ (∀ t c text, (t, c, text) ∈ failed_branches o → (t ∉ good_branches o) ∧ c = merge_commit).
Proof.
  unfold publish_all. intros Hloop.
  pose proof (publish_loop_frame _ _ _ _ _ _ _ _ _ _ _ _ _ Hloop) as (_ & _ & Hg & Hf).
  pose proof (publish_loop_commit _ _ _ _ _ _ _ _ _ _ _ _ _ Hloop) as Hc.
  apply publish_loop_partition in Hloop as [Hall Hdisj];
    [| apply NoDup_elements | by intros | by intros].
  split.
  - intros t. split.
    + intros Hin. apply elem_of_elements in Hin.
      destruct (Hall t Hin) as [?|[text ?]]; [by left | right; eauto].
    + intros [Hin|(c & text & Hin)].
      * apply Hg in Hin. simpl in Hin. apply elem_of_union in Hin as [Hin|Hin]; [done|].
        apply elem_of_list_to_set in Hin. by apply elem_of_elements in Hin.
      * apply Hf in Hin as [Hin|Hin]; [done | by apply elem_of_elements in Hin].
  - intros t c text Hin. split; [by apply (Hdisj t c text)|].
    by destruct (Hc t c text Hin).
Qed.

Section PublishEvents.
Import PyStr.
Context (w : World).
Variables (merge_commit source_branch : string).
Variables (strategy project_name pr_project_name : string).
Variable cr : ChangeRecord.
Variable target_branches_exclude : gset bytes.

Abbreviation turn :=
  (publish_branch w merge_commit source_branch strategy project_name pr_project_name
     cr target_branches_exclude).

Lemma pull_requests_app (evs2 evs1 : list event) :
  pull_requests (evs2 ++ evs1) = pull_requests evs1 ++ pull_requests evs2.
Proof. unfold pull_requests. by rewrite reverse_app, omap_app. Qed.

Lemma pull_requests_none (evs : list event) :
  forallb (λ e, negb (opens_request e)) evs = true → pull_requests evs = [].
Proof.
  induction evs as [|e evs IH]; [done|]. simpl. intros [He Hevs]%andb_true_iff.
  change (e :: evs) with ([e] ++ evs). rewrite pull_requests_app, (IH Hevs).
  destruct e as [c ok|]; [|done]. destruct c; try done. by destruct ok.
Qed.

Lemma create_and_apply_opens_nothing tbranch :
  emits (λ e, negb (opens_request e)) (create_and_apply w merge_commit strategy cr tbranch).
Proof. unfold create_and_apply, apply_commit. emits_auto. Qed.

Lemma open_request_pull_request tbranch o :
  post (open_request w merge_commit source_branch pr_project_name cr tbranch o)
    (λ r evs, ∀ o', r = Val o' →
       (o' = add_good tbranch o ∧ pull_requests evs = [tbranch])
       ∨ ((∃ text, o' = add_failed (tbranch, merge_commit, text) o)
          ∧ pull_requests evs = [])).
Proof.
  intros h. unfold open_request, try_except_else, bind, call_api, log, ret.
  repeat case_match; simplify_eq; give_run; intros o' [= <-].
  all: first [ left; split; reflexivity | right; split; [eexists; reflexivity | reflexivity] ].
Qed.

(** A turn that ends normally has opened a pull request into the branch
    when the branch joins [good_branches], and none otherwise. *)
Lemma publish_branch_pull_request tbranch o :
  post (turn tbranch o)
    (λ r evs, ∀ o', r = Val o' →
       (o' = add_good tbranch o ∧ pull_requests evs = [tbranch])
       ∨ ((∃ text, o' = add_failed (tbranch, merge_commit, text) o)
          ∧ pull_requests evs = [])).
Proof.
  unfold publish_branch. rewrite tbranch_excluded_never.
  eapply post_bind; [apply create_and_apply_opens_nothing | | done | done].
  intros failed evs1 Hnone%pull_requests_none. destruct failed.
  - eapply post_bind; [apply log_post | | by intros ? [? _] | by intros ? ? [? _]].
    intros [] evs2 [_ ->]. apply post_ret. intros o' [= <-]. right.
    split; [by eexists|]. by rewrite !pull_requests_app, Hnone.
  - eapply post_bind; [apply log_post | | by intros ? [? _] | by intros ? ? [? _]].
    intros [] evs2 [_ ->]. eapply post_weaken; [apply open_request_pull_request|]. simpl.
    intros r evs3 Hopen o' Hr. rewrite !pull_requests_app, Hnone. simpl.
    destruct (Hopen o' Hr) as [[-> ->]|[Hfailed ->]]; [by left | by right].
Qed.

Lemma publish_loop_pull_requests (l : list string) o :
  post (for_each l turn o)
    (λ r evs, ∀ o', r = Val o' →
       ∀ t, t ∈ good_branches o' ↔ t ∈ good_branches o ∨ t ∈ pull_requests evs).
Proof.
  revert o. induction l as [|x l IH]; intros o; simpl.
  - apply post_ret. intros o' [= <-] t. split; [by left|]. intros [?|Hin]; [done|].
    by apply elem_of_nil in Hin.
  - eapply post_bind; [apply publish_branch_pull_request | | done | done].
    intros o1 evs1 Hturn. eapply post_weaken; [apply IH|]. simpl.
    intros r evs2 Hloop o' Hr t. rewrite (Hloop o' Hr t), pull_requests_app, elem_of_app.
    destruct (Hturn o1 eq_refl) as [[-> ->]|[[text ->] ->]]; simpl.
    + rewrite elem_of_union, !elem_of_singleton, list_elem_of_singleton. tauto.
    + split; [intros [?|?]; auto | intros [?|[Hin|?]]; auto].
      by apply elem_of_nil in Hin.
Qed.
End PublishEvents.

(** X10. When the publish loop has run to its end, [good_branches] holds
    exactly the branches into which a pull request was opened: a branch
    is in the set if and only if the loop made a call of [create_pull]
    with that base which succeeded. *)
Theorem good_branches_are_the_opened_requests (w : World)
    (merge_commit source_branch strategy project_name pr_project_name : string)
    (cr : ChangeRecord) (target_branches : gset string) (target_branches_exclude : gset bytes)
    (h : history) :
  ∃ r evs,
    publish_all w merge_commit source_branch strategy project_name pr_project_name
      cr target_branches target_branches_exclude h = (r, evs ++ h)
    ∧ ∀ o, r = Val o → ∀ t, t ∈ good_branches o ↔ t ∈ pull_requests evs.
Proof.
  destruct (publish_loop_pull_requests w merge_commit source_branch strategy project_name
              pr_project_name cr target_branches_exclude (elements target_branches)
              no_outcome h) as (r & evs & Hrun & Hgood).
  exists r, evs. split; [exact Hrun|]. intros o Hr t. rewrite (Hgood o Hr t). simpl.
  split; [intros [Hin|?]; [by apply not_elem_of_empty in Hin | done] | by right].
Qed.

(** ** The strategy *)

Section Strategy.
Import PyStr.
Context (w : World).
Variables (merge_commit source_branch : string).
Variables (strategy project_name pr_project_name : string).
Variable cr : ChangeRecord.
Variable target_branches_exclude : gset bytes.

Abbreviation turn :=
  (publish_branch w merge_commit source_branch strategy project_name pr_project_name
     cr target_branches_exclude).

Hypothesis not_merge : strategy ≠ "merge".
Hypothesis not_cherry_pick : strategy ≠ "cherry-pick".

Lemma invalid_strategy_ref tbranch :
  post (create_and_apply w merge_commit strategy cr tbranch)
    (λ r evs,
       r = Val true
       ∧ forallb makes_ref evs = true
       ∧ ∃ ok,
           Called (GetBranch tbranch) ok ∈ evs
           ∧ (ok = true →
              ∃ sha ok',
                Called (CreateGitRef ("refs/heads/" +:+ cherry_pick_branch merge_commit tbranch)
                          sha) ok' ∈ evs)).
Proof.
  apply String.eqb_neq in not_merge, not_cherry_pick.
  intros h. unfold create_and_apply, apply_commit. rewrite not_merge, not_cherry_pick.
  unfold try_except_else, bind, call_api, log, ret.
  repeat case_match; simplify_eq; give_run; (split; [done|]); (split; [done|]).
  - exists true. split; [apply list_elem_of_In; simpl; tauto|]. intros _.
    eexists _, true. apply list_elem_of_In. simpl. eauto.
  - exists true. split; [apply list_elem_of_In; simpl; tauto|]. intros _.
    eexists _, false. apply list_elem_of_In. simpl. eauto.
  - exists false. split; [apply list_elem_of_In; simpl; tauto | done].
Qed.

Lemma invalid_strategy_turn tbranch o :
  post (turn tbranch o)
    (λ r evs,
       (∃ text, r = Val (add_failed (tbranch, merge_commit, text) o))
       ∧ forallb makes_ref evs = true
       ∧ ∃ ok,
           Called (GetBranch tbranch) ok ∈ evs
           ∧ (ok = true →
              ∃ sha ok',
                Called (CreateGitRef ("refs/heads/" +:+ cherry_pick_branch merge_commit tbranch)
                          sha) ok' ∈ evs)).
Proof.
  unfold publish_branch. rewrite tbranch_excluded_never.
  eapply post_bind; [apply invalid_strategy_ref | | by intros ? [? _] | by intros ? ? [? _]].
  intros failed evs1 ([= ->] & H1 & ok & Hlook & Hmake).
  eapply post_bind; [apply log_post | | by intros ? [? _] | by intros ? ? [? _]].
  intros [] evs2 [_ ->]. apply post_ret.
  split; [by eexists|]. split; [exact H1|]. exists ok.
  split; [rewrite !elem_of_app; tauto|]. intros Hok.
  destruct (Hmake Hok) as (sha & ok' & Href). exists sha, ok'.
  rewrite !elem_of_app. tauto.
Qed.

Lemma invalid_strategy_loop (l : list string) o :
  good_branches o = ∅ →
  post (for_each l turn o)
    (λ r evs,
       (∃ o', r = Val o' ∧ good_branches o' = ∅)
       ∧ forallb makes_ref evs = true
       ∧ ∀ t, t ∈ l →
           ∃ ok,
             Called (GetBranch t) ok ∈ evs
             ∧ (ok = true →
                ∃ sha ok',
                  Called (CreateGitRef ("refs/heads/" +:+ cherry_pick_branch merge_commit t)
                            sha) ok' ∈ evs)).
Proof.
  revert o. induction l as [|x l IH]; intros o Hgood; simpl.
  - apply post_ret. split; [eauto|]. split; [done|]. intros t Hin.
    by apply elem_of_nil in Hin.
  - eapply post_bind; [apply invalid_strategy_turn | | by intros ? [[? ?] _]
                      | by intros ? ? [[? ?] _]].
    intros o1 evs1 ([text [= ->]] & H1 & okx & Hlook & Hmake).
    eapply post_weaken; [by apply IH|]. simpl.
    intros r evs2 (Hr & H2 & Hrest). split; [done|].
    split; [by apply forallb_app_true|].
    intros t [->|Hin]%elem_of_cons.
    + exists okx. split; [apply elem_of_app; by right|]. intros Hok.
      destruct (Hmake Hok) as (sha & ok' & Href). exists sha, ok'.
      apply elem_of_app. by right.
    + destruct (Hrest t Hin) as (ok & Hlook' & Hmake'). exists ok.
      split; [apply elem_of_app; by left|]. intros Hok.
      destruct (Hmake' Hok) as (sha & ok' & Href). exists sha, ok'.
      apply elem_of_app. by left.
Qed.
End Strategy.

(** X11. With a strategy that is neither [merge] nor [cherry-pick], the
    publish loop still looks up the tip of every target branch and, when
    the look-up succeeds, creates the new ref for it; and it does nothing
    else: no commit is merged or replayed, no pull request is opened. The
    loop runs to its end, [good_branches] is empty, and every target
    branch is in [failed_branches]. *)
Theorem invalid_strategy_fails_every_branch (w : World)
    (merge_commit source_branch strategy project_name pr_project_name : string)
    (cr : ChangeRecord) (target_branches : gset string) (target_branches_exclude : gset bytes)
    (h : history) :
  strategy ≠ "merge" → strategy ≠ "cherry-pick" →
  ∃ o evs,
    publish_all w merge_commit source_branch strategy project_name pr_project_name
      cr target_branches target_branches_exclude h = (Val o, evs ++ h)
    ∧ forallb makes_ref evs = true
    ∧ good_branches o = ∅
    ∧ ∀ t, t ∈ target_branches →
        (∃ text, (t, merge_commit, text) ∈ failed_branches o)
        ∧ ∃ ok,
            Called (GetBranch t) ok ∈ evs
            ∧ (ok = true →
               ∃ sha ok',
                 Called (CreateGitRef ("refs/heads/" +:+ cherry_pick_branch merge_commit t)
                           sha) ok' ∈ evs).
Proof.
  intros Hm Hc.
  destruct (invalid_strategy_loop w merge_commit source_branch strategy project_name
              pr_project_name cr target_branches_exclude Hm Hc (elements target_branches)
              no_outcome eq_refl h) as (r & evs & Hrun & (o & -> & Hgood) & Hevs & Hrefs).
  exists o, evs. split_and!; [done..|].
  apply publish_loop_partition in Hrun as [Hall _];
    [| apply NoDup_elements | by intros | by intros].
  intros t Hin. apply elem_of_elements in Hin. split; [|by apply Hrefs].
  destruct (Hall t Hin) as [Hg|?]; [|done]. rewrite Hgood in Hg.
  by apply not_elem_of_empty in Hg.
Qed.

Section StrategiesApart.
Context `{Re} (w : World).
Variables (merge_commit source_branch : string).
Variable target_branch_rules : list (string * list string).
Variables (project_name pr_project_name : string).
Variable dry_run : bool.

Lemma merge_runs_no_git :
  emits (only_git_show merge_commit)
    (cherryPickPr w merge_commit source_branch target_branch_rules "merge"
       project_name pr_project_name dry_run).
Proof.
  unfold cherryPickPr, extract, get_pull_handle, scan_labels, check_swept, label_step,
    listChangedPackages, resolve_rules, rule_step, write_disposition, publish_all,
    publish_branch, create_and_apply, open_request, report, post_summary.
  change (apply_commit w merge_commit "merge") with
    (λ cr tbranch,
       try_except_else
         (call_api (Merge (cherry_pick_branch merge_commit tbranch) (commit_sha cr))
            (λ h, repo_merge w h (cherry_pick_branch merge_commit tbranch) (commit_sha cr)))
         (λ message,
            log CRITICAL "failed to merge merge commit, error: %s" [message];;;
            ret true)
         (λ _, ret false)).
  emits_auto.
Qed.

Lemma cherry_pick_merges_nothing :
  emits no_merge
    (cherryPickPr w merge_commit source_branch target_branch_rules "cherry-pick"
       project_name pr_project_name dry_run).
Proof.
  unfold cherryPickPr, extract, get_pull_handle, scan_labels, check_swept, label_step,
    listChangedPackages, resolve_rules, rule_step, write_disposition, publish_all,
    publish_branch, create_and_apply, open_request, report, post_summary.
  change (apply_commit w merge_commit "cherry-pick") with
    (λ cr tbranch,
       git w "git fetch upstream";;;
       git w "git fetch origin";;;
       git w ("git checkout " +:+ cherry_pick_branch merge_commit tbranch);;;
       let* (status, _, err) := git w ("git cherry-pick -x -m 1 " +:+ commit_sha cr) in
       if status =? 0 then
         let* (status, _, err) := git w (amend_command cr) in
         if negb (status =? 0) then
           log CRITICAL "edit commit message, error: {err}" [err];;;
           ret true
         else
           let* (status, _, err) :=
             git w ("git push origin " +:+ cherry_pick_branch merge_commit tbranch) in
           if negb (status =? 0) then
             log CRITICAL "failed to push, error: {err}" [err];;;
             ret true
           else ret false
       else
         log CRITICAL "failed to cherry pick merge commit, error: %s" [err];;;
         git w "git cherry-pick --abort";;;
         ret true).
  emits_auto.
Qed.
End StrategiesApart.

(** X12. The two strategies do not mix. With the strategy [merge],
    [cherryPickPr] runs no git command besides the [git show] of the merge
    commit: the commit is applied through the forge alone. With the
    strategy [cherry-pick] it never calls the forge's [merge]. *)
Theorem strategies_do_not_mix `{Re} (w : World)
    (merge_commit source_branch : string) (target_branch_rules : list (string * list string))
    (project_name pr_project_name : string) (dry_run : bool) (h : history) :
  (∃ r evs,
     cherryPickPr w merge_commit source_branch target_branch_rules "merge"
       project_name pr_project_name dry_run h = (r, evs ++ h)
     ∧ forallb (only_git_show merge_commit) evs = true)
  ∧ (∃ r evs,
       cherryPickPr w merge_commit source_branch target_branch_rules "cherry-pick"
         project_name pr_project_name dry_run h = (r, evs ++ h)
       ∧ forallb no_merge evs = true).
Proof.
  split; [apply merge_runs_no_git | apply cherry_pick_merges_nothing].
Qed.

(** ** The name of the new ref *)

Section RefNames.
Import PyStr.

Lemma append_cancel_l (a b c : string) : a +:+ b = a +:+ c → b = c.
Proof.
  induction a as [|x a IH]; [done|].
  change (String x (a +:+ b) = String x (a +:+ c) → b = c). intros [= Heq]. by apply IH.
Qed.

Lemma split_at_dash (a1 a2 b1 b2 : string) :
  no_dash a1 = true → no_dash a2 = true →
  a1 +:+ "-" +:+ b1 = a2 +:+ "-" +:+ b2 → a1 = a2 ∧ b1 = b2.
Proof.
  revert a2. induction a1 as [|x a1 IH]; intros [|y a2] H1 H2.
  - change (String "-" b1 = String "-" b2 → EmptyString = EmptyString ∧ b1 = b2).
    by intros [= ->].
  - simpl in H2. apply andb_true_iff in H2 as [Hy _].
    change (String "-" b1 = String y (a2 +:+ "-" +:+ b2) → EmptyString = String y a2 ∧ b1 = b2).
    intros [= <- _]. done.
  - simpl in H1. apply andb_true_iff in H1 as [Hx _].
    change (String x (a1 +:+ "-" +:+ b1) = String "-" b2 → String x a1 = EmptyString ∧ b1 = b2).
    intros [= -> _]. done.
  - simpl in H1, H2. apply andb_true_iff in H1 as [_ H1]. apply andb_true_iff in H2 as [_ H2].
    change (String x (a1 +:+ "-" +:+ b1) = String y (a2 +:+ "-" +:+ b2)
            → String x a1 = String y a2 ∧ b1 = b2).
    intros [= -> Heq]. destruct (IH a2 H1 H2 Heq) as [-> ->]. done.
Qed.
End RefNames.

(** X13. The name of the new ref tells the merge commit and the target
    branch: for commit hashes, which hold no dash, two different pairs of
    a merge commit and a target branch never give the same ref name. *)
Theorem ref_names_do_not_collide (merge_commit1 merge_commit2 tbranch1 tbranch2 : string) :
  no_dash merge_commit1 = true → no_dash merge_commit2 = true →
  (merge_commit1, tbranch1) ≠ (merge_commit2, tbranch2) →
  cherry_pick_branch merge_commit1 tbranch1 ≠ cherry_pick_branch merge_commit2 tbranch2.
Proof.
  intros H1 H2 Hne Heq. unfold cherry_pick_branch in Heq.
  apply append_cancel_l in Heq.
  destruct (split_at_dash _ _ _ _ H1 H2 Heq) as [-> ->]. done.
Qed.

(** ** A change without a target *)

(** X14. A change for which the plan finds no target branch is only
    labelled: without the dry-run flag, [cherryPickPr] writes the labels
    of the originating request with [sweep:ignore] added, and that is the
    only thing it does after the plan; no ref, pull request, issue or
    comment is made. *)
Theorem change_without_target_is_only_labelled `{Re} (w : World)
    (merge_commit source_branch : string) (target_branch_rules : list (string * list string))
    (strategy project_name pr_project_name : string)
    (h h1 : history) (cr : ChangeRecord) (target_branches_exclude : gset bytes) :
  plan w merge_commit target_branch_rules h = (Val (cr, ∅, target_branches_exclude), h1) →
  ∃ r ok,
    cherryPickPr w merge_commit source_branch target_branch_rules strategy
      project_name pr_project_name false h
      = (r, Called (SetLabels (PR_IID cr) (labels cr ∪ {["sweep:ignore"]})) ok :: h1)
    ∧ (ok = true → r = Val tt).
Proof.
  intros Hplan. rewrite cherryPickPr_plan. unfold bind at 1. rewrite Hplan.
  unfold write_disposition, disposition, publish_all, report.
  rewrite elements_empty. simpl. unfold bind, call_api.
  destruct (pull_set_labels w h1 _ _) as [[]|message].
  - by exists (Val tt), true.
  - by eexists (Raised _), false.
Qed.

(** ** The report *)

Section ReportFacts.
Import PyStr.
Context (w : World).
Variables (merge_commit source_branch : string).
Variables (strategy project_name pr_project_name : string).
Variable cr : ChangeRecord.
Variable target_branches_exclude : gset bytes.

Abbreviation turn :=
  (publish_branch w merge_commit source_branch strategy project_name pr_project_name
     cr target_branches_exclude).




End ReportFacts.


Section SummaryFacts.
Context (w : World) (cr : ChangeRecord).


End SummaryFacts.


(** ** Titles *)

Section Titles.
Import PyStr Extract.

Lemma all_chars_append (f : ascii → bool) (a b : string) :
  all_chars f (a +:+ b) = all_chars f a && all_chars f b.
Proof.
  induction a as [|c a IH]; [done|].
  change (all_chars f (String c (a +:+ b)) = all_chars f (String c a) && all_chars f b).
  simpl. by rewrite IH, andb_assoc.
Qed.

Lemma all_chars_replace_from (f : ascii → bool) (old : string) (skip : nat) (s : string) :
  all_chars f s = true → all_chars f (replace_from old EmptyString skip s) = true.
Proof.
  revert skip. induction s as [|c s IH]; intros skip; [done|].
  cbn [all_chars]. intros [Hc Hs]%andb_true_iff.
  destruct skip as [|k]; cbn [replace_from]; [|by apply IH].
  destruct (String.prefix old (String c s)).
  - change (all_chars f (replace_from old EmptyString (String.length old - 1) s) = true).
    by apply IH.
  - cbn [all_chars]. by rewrite Hc, IH.
Qed.

Lemma after_bracket_at (tag rest : string) :
  no_bracket tag = true →
  after_bracket (tag +:+ "]" +:+ rest) = Some (tag, rest).
Proof.
  induction tag as [|c tag IH].
  - intros _. change (after_bracket (String "]" rest) = Some (EmptyString, rest)). done.
  - simpl. intros [Hc Htag]%andb_true_iff. apply negb_true_iff in Hc.
    change (after_bracket (String c (tag +:+ "]" +:+ rest)) = Some (String c tag, rest)).
    simpl. rewrite Hc. by rewrite (IH Htag).
Qed.

Lemma title_group_none (s : string) :
  starts_without_space s = true → title_group s = None.
Proof.
  destruct s as [|c s]; [done|]. simpl. intros Hc%negb_true_iff. by rewrite Hc.
Qed.

Lemma fullmatch_title_prefix_bracket (t : string) :
  fullmatch_title_prefix (String "[" t)
  = match after_bracket t with
    | Some (String _ _, rest) => title_group rest
    | _ => None
    end.
Proof. reflexivity. Qed.
End Titles.

(** X16. The title of a downstream request gives back the title it was
    made from: for a title of one line that does not start with white
    space, and a target branch without a closing bracket, stripping the
    bracketed prefix (lines 224-227) from the title made at line 385
    yields the original title again. So a request that was itself made by
    a sweep is swept further under its first title, and the prefixes do
    not pile up. *)
Theorem swept_title_gives_back_the_title (cr : ChangeRecord) (tbranch : string) :
  Extract.one_line (orig_pr_title cr) = true →
  starts_without_space (orig_pr_title cr) = true →
  no_bracket tbranch = true →
  Extract.canonical_title (new_pr_title cr tbranch) = orig_pr_title cr.
Proof.
  intros Hline Hspace Hbranch.
  unfold Extract.canonical_title, new_pr_title.
  change ("[sweep:" +:+ PyStr.replace "rel-" EmptyString tbranch +:+ "] " +:+ orig_pr_title cr)
    with (String "[" ((String "s" ("weep:" +:+ PyStr.replace "rel-" EmptyString tbranch))
                        +:+ "]" +:+ (String " " (orig_pr_title cr)))).
  rewrite fullmatch_title_prefix_bracket, after_bracket_at.
  - cbn [Extract.title_group]. change (Extract.is_space " ") with true. cbv iota.
    rewrite (title_group_none _ Hspace), Hline. done.
  - change (String "s" ("weep:" +:+ PyStr.replace "rel-" EmptyString tbranch))
      with ("sweep:" +:+ PyStr.replace "rel-" EmptyString tbranch).
    unfold no_bracket. rewrite all_chars_append. apply andb_true_iff. split; [done|].
    by apply all_chars_replace_from.
Qed.

(** ** The label loop *)

Section LabelFacts.
Import PyStr.

Lemma startswith_append (p rest : string) : startswith p (p +:+ rest) = true.
Proof.
  unfold startswith. induction p as [|c p IH]; [by destruct rest|].
  change (String.prefix (String c p) (String c (p +:+ rest)) = true).
  simpl. by destruct (ascii_dec c c).
Qed.

Lemma startswith_inv (p s : string) :
  startswith p s = true → ∃ rest, s = p +:+ rest.
Proof.
  unfold startswith. revert s. induction p as [|c p IH]; intros s; [by exists s|].
  destruct s as [|c' s]; [done|]. simpl. destruct (ascii_dec c c') as [->|]; [|done].
  intros [rest ->]%IH. by exists rest.
Qed.

Lemma split_singleton (sep : ascii) (s x : string) :
  split sep s = [x] ↔ x = s ∧ all_chars (λ c, negb (Ascii.eqb c sep)) s = true.
Proof.
  split.
  - revert x. induction s as [|c s IH]; intros x; simpl.
    + by intros [= <-].
    + destruct (Ascii.eqb c sep) eqn:Hc.
      * intros [= _ Hnil]. by apply split_not_nil in Hnil.
      * destruct (split sep s) as [|y ys] eqn:Hs; [by apply split_not_nil in Hs|].
        intros [= <- ->]. destruct (IH y eq_refl) as [-> ->]. done.
  - intros [-> Hs]. by apply split_no_sep.
Qed.

Lemma split_also_targeting (rest : string) :
  split ":" ("alsoTargeting:" +:+ rest) = "alsoTargeting" :: split ":" rest.
Proof.
  change ("alsoTargeting:" +:+ rest) with ("alsoTargeting" +:+ String ":" rest).
  by apply split_at_sep.
Qed.

Lemma split_sweep_from (rest : string) :
  split " " ("sweep:from " +:+ rest) = "sweep:from" :: split " " rest.
Proof.
  change ("sweep:from " +:+ rest) with ("sweep:from" +:+ String " " rest).
  by apply split_at_sep.
Qed.

Lemma also_targets_startswith label b :
  also_targets label b → startswith "alsoTargeting:" label = true.
Proof. intros [-> _]. apply startswith_append. Qed.

Lemma swept_from_startswith label x :
  swept_from label x → startswith "sweep:from " label = true.
Proof. intros (name & -> & _). apply startswith_append. Qed.

(** The exclusion a label adds. *)
Lemma label_step_exclusion label (sets : gset string * gset bytes) :
  ∃ ex',
    (∀ x, x ∈ ex' ↔ x ∈ sets.2 ∨ swept_from label x)
    ∧ ∀ h, ∃ evs,
        (if startswith "sweep:from " label then
           match split " " label with
           | [_; name] =>
               log INFO "was swept from branch: %s -> excluding %s from the target list"
                 [bytes_chars (encode_ascii_replace name);
                  bytes_chars (encode_ascii_replace name)];;;
               ret (sets.1, sets.2 ∪ {[ encode_ascii_replace name ]})
           | _ => ret sets
           end
         else ret sets) h = (Val (sets.1, ex'), evs ++ h).
Proof.
  destruct (startswith "sweep:from " label) eqn:Hs.
  - apply startswith_inv in Hs as [rest ->]. rewrite split_sweep_from.
    destruct (split " " rest) as [|name [|second more]] eqn:Hsplit.
    + by apply split_not_nil in Hsplit.
    + apply split_singleton in Hsplit as [-> Hname].
      exists (sets.2 ∪ {[encode_ascii_replace rest]}). split.
      * intros x. rewrite elem_of_union, elem_of_singleton. split.
        -- intros [?| ->]; [by left|]. right. by exists rest.
        -- intros [?|(name & Heq & _ & ->)]; [by left|].
           apply append_cancel_l in Heq. subst name. by right.
      * intros h. unfold bind, log, ret. by eexists [_].
    + exists sets.2. split.
      * intros x. split; [by left|]. intros [?|(name' & Heq & Hname & _)]; [done|].
        apply append_cancel_l in Heq. subst name'.
        rewrite split_no_sep in Hsplit by done. done.
      * intros h. exists []. by destruct sets.
  - exists sets.2. split.
    + intros x. split; [by left|]. intros [?|Hx]; [done|].
      apply swept_from_startswith in Hx. congruence.
    + intros h. exists []. by destruct sets.
Qed.

Lemma label_step_spec label (sets : gset string * gset bytes) h :
  startswith "sweptFrom:" label = false →
  ∃ sets' evs,
    label_step label sets h = (Val sets', evs ++ h)
    ∧ (∀ b, b ∈ sets'.1 ↔ b ∈ sets.1 ∨ also_targets label b)
    ∧ (∀ x, x ∈ sets'.2 ↔ x ∈ sets.2 ∨ swept_from label x).
Proof.
  intros Hswept. unfold label_step. rewrite Hswept.
  destruct (label_step_exclusion label sets) as (ex' & Hex & Hrun).
  unfold bind at 1. destruct (Hrun h) as [evs1 ->].
  destruct (startswith "alsoTargeting:" label) eqn:Hs.
  - apply startswith_inv in Hs as [rest ->]. rewrite split_also_targeting.
    destruct (split ":" rest) as [|name [|second more]] eqn:Hsplit.
    + by apply split_not_nil in Hsplit.
    + apply split_singleton in Hsplit as [-> Hname].
      unfold bind, log, ret.
      eexists (sets.1 ∪ {[rest]}, ex'), (_ :: evs1). split; [done|]. split; [|done].
      intros b. simpl. rewrite elem_of_union, elem_of_singleton. split.
      * intros [?| ->]; [by left|]. right. done.
      * intros [?|[Heq _]]; [by left|]. apply append_cancel_l in Heq. by right.
    + unfold bind, log, ret.
      eexists (sets.1, ex'), (_ :: evs1). split; [done|]. split; [|done].
      intros b. simpl. split; [by left|]. intros [?|[Heq Hname]]; [done|].
      apply append_cancel_l in Heq. subst b.
      rewrite split_no_sep in Hsplit by done. done.
  - exists (sets.1, ex'), evs1. split; [done|]. split; [|done].
    intros b. simpl. split; [by left|]. intros [?|Hb]; [done|].
    apply also_targets_startswith in Hb. congruence.
Qed.

Lemma label_step_not_swept label sets h sets' h' :
  label_step label sets h = (Val sets', h') → startswith "sweptFrom:" label = false.
Proof.
  destruct (startswith "sweptFrom:" label) eqn:Hs; [|done].
  destruct (label_step_swept label sets h Hs) as (evs & -> & _). done.
Qed.

Lemma label_loop_spec (l : list string) (sets : gset string * gset bytes) h sets' h' :
  for_each l label_step sets h = (Val sets', h') →
  (∀ b, b ∈ sets'.1 ↔ b ∈ sets.1 ∨ ∃ label, label ∈ l ∧ also_targets label b)
  ∧ (∀ x, x ∈ sets'.2 ↔ x ∈ sets.2 ∨ ∃ label, label ∈ l ∧ swept_from label x)
  ∧ ∀ label, label ∈ l → startswith "sweptFrom:" label = false.
Proof.
  revert sets h. induction l as [|label l IH]; intros sets h; simpl.
  - intros [= <- <-]. split_and!.
    + intros b. split; [by left|]. intros [?|(label & Hin & _)]; [done|].
      by apply elem_of_nil in Hin.
    + intros x. split; [by left|]. intros [?|(label & Hin & _)]; [done|].
      by apply elem_of_nil in Hin.
    + intros label Hin. by apply elem_of_nil in Hin.
  - unfold bind at 1. destruct (label_step label sets h) as [[sets1| |e] h1] eqn:Hstep; [|done..].
    intros Hloop. pose proof (label_step_not_swept _ _ _ _ _ Hstep) as Hns.
    destruct (label_step_spec label sets h Hns) as (sets1' & evs & Hstep' & Hb1 & Hx1).
    rewrite Hstep in Hstep'. injection Hstep' as <- _.
    destruct (IH _ _ Hloop) as (Hb & Hx & Hrest). split_and!.
    + intros b. rewrite Hb, Hb1. split.
      * intros [[?|?]|(l' & Hin & ?)]; [by left | right; exists label; split; [left|done] |].
        right. exists l'. split; [by right | done].
      * intros [?|(l' & Hin & Hl')]; [by left; left|].
        apply elem_of_cons in Hin as [->|Hin]; [by left; right|]. right. by exists l'.
    + intros x. rewrite Hx, Hx1. split.
      * intros [[?|?]|(l' & Hin & ?)]; [by left | right; exists label; split; [left|done] |].
        right. exists l'. split; [by right | done].
      * intros [?|(l' & Hin & Hl')]; [by left; left|].
        apply elem_of_cons in Hin as [->|Hin]; [by left; right|]. right. by exists l'.
    + intros l' [->|Hin]%elem_of_cons; [done | by apply Hrest].
Qed.
End LabelFacts.

(** X17. What the label loop gives when it runs to its end. A branch [b]
    is in the target set exactly when the request has the label
    [alsoTargeting:b] and [b] holds no colon; the exclusion set holds
    exactly the encoded names [n] of the labels [sweep:from n] in which
    [n] holds no space; and none of the labels is [sweep:done],
    [sweep:ignore] or starts with [sweptFrom:]. *)
Theorem labels_give_targets_and_exclusions (labels : gset string) (h h' : history)
    (target_branches : gset string) (target_branches_exclude : gset bytes) :
  scan_labels labels h = (Val (target_branches, target_branches_exclude), h') →
  (∀ b, b ∈ target_branches ↔ ("alsoTargeting:" +:+ b) ∈ labels ∧ no_colon b = true)
  ∧ (∀ x, x ∈ target_branches_exclude ↔
       ∃ name, ("sweep:from " +:+ name) ∈ labels ∧ no_space name = true
               ∧ x = encode_ascii_replace name)
  ∧ ¬ marked_swept labels.
Proof.
  unfold scan_labels, check_swept.
  destruct (bool_decide ("sweep:done" ∈ labels)) eqn:Hdone; [done|].
  destruct (bool_decide ("sweep:ignore" ∈ labels)) eqn:Hignore; [done|].
  apply bool_decide_eq_false in Hdone, Hignore.
  unfold bind at 1, ret at 1. intros Hloop.
  apply label_loop_spec in Hloop as (Hb & Hx & Hns). simpl in Hb, Hx. split_and!.
  - intros b. rewrite Hb. split.
    + intros [Hin|(label & Hin & -> & Hcolon)]; [by apply not_elem_of_empty in Hin|].
      by apply elem_of_elements in Hin.
    + intros [Hin Hcolon]. right. exists ("alsoTargeting:" +:+ b).
      by rewrite elem_of_elements.
  - intros x. rewrite Hx. split.
    + intros [Hin|(label & Hin & name & -> & Hname & ->)]; [by apply not_elem_of_empty in Hin|].
      exists name. by apply elem_of_elements in Hin.
    + intros (name & Hin & Hname & ->). right. exists ("sweep:from " +:+ name).
      rewrite elem_of_elements. split; [done|]. by exists name.
  - intros [?|[?|(label & Hin & Hs)]]; [done..|].
    apply elem_of_elements in Hin. rewrite (Hns label Hin) in Hs. done.
Qed.

(** ** The original author in the body of a downstream request *)

Section Watcher.
Import PyStr Extract.

Lemma get_no_at (s : string) (n : nat) :
  no_at s = true → String.get n s ≠ Some "@"%char.
Proof.
  revert n. induction s as [|c s IH]; intros n; [done|]. simpl.
  intros [Hc Hs]%andb_true_iff. destruct n as [|n]; [|by apply IH].
  intros [= ->]. done.
Qed.

Lemma prefix_get (p s : string) (n : nat) (c : ascii) :
  String.prefix p s = true → String.get n p = Some c → String.get n s = Some c.
Proof.
  revert s n. induction p as [|a p IH]; intros s n; [done|].
  destruct s as [|b s]; [done|]. simpl. destruct (ascii_dec a b) as [->|]; [|done].
  intros Hp. destruct n as [|n]; [done|]. by apply IH.
Qed.

Lemma marker_has_no_early_at (k : nat) :
  (k < 23)%nat → String.get k watcher_marker ≠ Some "@"%char.
Proof.
  intros Hk. do 23 (destruct k as [|k]; [done|]). lia.
Qed.

Lemma not_before_marker (rest : string) : not_before (watcher_marker +:+ rest).
Proof.
  intros Q HQ Hne. destruct (String.prefix watcher_marker (Q +:+ watcher_marker +:+ rest)) eqn:Hp; [|done].
  exfalso. apply (prefix_get _ _ 23 "@") in Hp; [|done].
  destruct (decide (23 < String.length Q)%nat) as [Hlt|Hge].
  - rewrite <- append_correct1 in Hp by done. by apply get_no_at in Hp.
  - assert (0 < String.length Q)%nat by (destruct Q; [done | simpl; lia]).
    replace 23%nat with ((23 - String.length Q) + String.length Q)%nat in Hp by lia.
    rewrite <- append_correct2 in Hp.
    rewrite <- append_correct1 in Hp by (simpl; lia).
    apply marker_has_no_early_at in Hp; [done | lia].
Qed.

Lemma no_at_append (a b : string) : no_at (a +:+ b) = no_at a && no_at b.
Proof. apply all_chars_append. Qed.

Lemma search_skips (P s : string) :
  no_at P = true → not_before s →
  search_original_author (P +:+ s) = search_original_author s ∧ not_before (P +:+ s).
Proof.
  intros HP Hs. split.
  - induction P as [|c P IH]; [done|].
    change (search_original_author (String c (P +:+ s)) = search_original_author s).
    cbn [search_original_author]. unfold strip_prefix at 1.
    change (String c (P +:+ s)) with (String c P +:+ s).
    fold watcher_marker. rewrite (Hs (String c P)) by done.
    simpl in HP. apply andb_true_iff in HP as [_ HP]. by apply IH.
  - intros Q HQ Hne. rewrite <- append_assoc. apply Hs.
    + by rewrite no_at_append, HQ, HP.
    + destruct Q; [done | discriminate].
Qed.

Lemma substring_prefix (a b : string) :
  String.substring 0 (String.length a) (a +:+ b) = a.
Proof.
  induction a as [|c a IH]; [by destruct b|].
  change (String c (String.substring 0 (String.length a) (a +:+ b)) = String c a).
  by rewrite IH.
Qed.

Lemma substring_whole (s : string) : String.substring 0 (String.length s) s = s.
Proof. induction s as [|c s IH]; [done|]. simpl. by rewrite IH. Qed.

Lemma strip_prefix_append (p rest : string) : strip_prefix p (p +:+ rest) = Some rest.
Proof.
  unfold strip_prefix. pose proof (startswith_append p rest) as Hp.
  unfold startswith in Hp. rewrite Hp. f_equal. clear Hp.
  induction p as [|c p IH].
  - change (String.substring 0 (String.length rest - 0) rest = rest).
    rewrite Nat.sub_0_r. apply substring_whole.
  - exact IH.
Qed.

Lemma take_line_append (a rest : string) :
  all_chars (λ c, negb (Ascii.eqb c (ascii_of_nat 10))) a = true →
  take_line (a +:+ String (ascii_of_nat 10) rest) = a.
Proof.
  induction a as [|c a IH].
  - intros _. change (take_line (String (ascii_of_nat 10) rest) = EmptyString). done.
  - cbn [all_chars]. intros [Hc Ha]%andb_true_iff. apply negb_true_iff in Hc.
    change (take_line (String c (a +:+ String (ascii_of_nat 10) rest)) = String c a).
    cbn [take_line]. rewrite Hc. by rewrite (IH Ha).
Qed.

Lemma watcher_end_tail (a : string) :
  watcher_end (a +:+ " as watcher.") = Some (String.length a).
Proof.
  induction a as [|c a IH]; [done|].
  change (watcher_end (String c (a +:+ " as watcher.")) = Some (S (String.length a))).
  cbn [watcher_end]. by rewrite IH.
Qed.

Lemma search_at_marker (author rest : string) :
  one_line author = true →
  search_original_author
    (watcher_marker +:+ author +:+ " as watcher." +:+ String (ascii_of_nat 10) rest)
  = Some author.
Proof.
  intros Hline. destruct author as [|c author]; [done|]. simpl in Hline.
  change (watcher_marker +:+ String c author +:+ " as watcher." +:+ String (ascii_of_nat 10) rest)
    with (String "A" ("dding original author @" +:+ String c author +:+ " as watcher."
                        +:+ String (ascii_of_nat 10) rest)).
  cbn [search_original_author].
  change (String "A" ("dding original author @" +:+ String c author +:+ " as watcher."
                        +:+ String (ascii_of_nat 10) rest))
    with ("Adding original author @"
            +:+ (String c author +:+ " as watcher." +:+ String (ascii_of_nat 10) rest)).
  rewrite strip_prefix_append.
  rewrite <- append_assoc, take_line_append.
  - change (String c author +:+ " as watcher.") with (String c (author +:+ " as watcher.")).
    cbv iota. rewrite watcher_end_tail. by rewrite substring_prefix.
  - rewrite all_chars_append. apply andb_true_iff. split; [exact Hline | done].
Qed.

Lemma pretty_N_char_no_at (x : N) : negb (Ascii.eqb (pretty_N_char x) "@") = true.
Proof. unfold pretty_N_char. by repeat case_match. Qed.

Lemma pretty_N_go_no_at (x : N) (s : string) :
  no_at s = true → no_at (pretty_N_go x s) = true.
Proof.
  revert s. induction (N.lt_wf_0 x) as [x _ IH]; intros s Hs.
  destruct (decide (x = 0)%N) as [->|Hx]; [by rewrite pretty_N_go_0|].
  rewrite pretty_N_go_step by lia. apply IH.
  - apply N.div_lt; lia.
  - unfold no_at in *. cbn [all_chars]. by rewrite pretty_N_char_no_at, Hs.
Qed.

Lemma str_of_int_no_at (n : Z) : no_at (str_of_int n) = true.
Proof.
  unfold str_of_int, pretty, pretty_Z. destruct n as [|p|p]; [done | |].
  - unfold pretty, pretty_N. by apply pretty_N_go_no_at.
  - change (no_at (String "-" (pretty (N.pos p))) = true).
    unfold pretty, pretty_N. simpl. by apply pretty_N_go_no_at.
Qed.
End Watcher.

(** X18. The body of a downstream request carries the original author in
    the form the extraction reads: for an author name of one line, and a
    title and a target branch without [@], the search of line 211 run on
    the body made at lines 386-392 finds that author. So a request that
    was itself made by a sweep is swept further with the same original
    author. *)
Theorem swept_body_names_the_original_author (cr : ChangeRecord) (tbranch : string) :
  Extract.one_line (original_pr_author cr) = true →
  no_at (orig_pr_title cr) = true →
  no_at tbranch = true →
  Extract.search_original_author (body_text cr tbranch) = Some (original_pr_author cr).
Proof.
  intros Hauthor Htitle Hbranch. unfold body_text.
  change "Adding original author @" with watcher_marker.
  pose proof (not_before_marker
    (original_pr_author cr +:+ " as watcher." +:+ PyStr.nl +:+ PyStr.nl +:+ release_notes cr))
    as H0.
  repeat match goal with
  | Hs : not_before ?s |- context [?P +:+ ?s] =>
      lazymatch goal with
      | _ : not_before (P +:+ s) |- _ => fail
      | _ => idtac
      end;
      destruct (search_skips P s) as [? ?];
        [first [ done | apply str_of_int_no_at ] | exact Hs |]
  end.
  repeat match goal with
  | Heq : Extract.search_original_author (?P +:+ ?s) = Extract.search_original_author ?s
    |- Extract.search_original_author (?P +:+ ?s) = _ => rewrite Heq
  end.
  exact (search_at_marker (original_pr_author cr) (PyStr.nl +:+ release_notes cr) Hauthor).
Qed.

(** ** An author without commits *)

(** X19. The author's name and address are taken from the first commit
    of the original author in the repository (line 220). When that author
    has no commit there, the index raises [IndexError], which nothing
    catches: [cherryPickPr] ends with it right after the look-up of the
    commits, before the labels are read, so nothing is written. *)
Theorem author_without_commits_is_not_caught `{Re} (w : World)
    (merge_commit source_branch : string) (target_branch_rules : list (string * list string))
    (strategy project_name pr_project_name : string) (dry_run : bool)
    (h h1 : history) (commit : string) (iid : Z) (pr_handle : Pull) :
  let author :=
    default (pull_user_login pr_handle)
      (Extract.search_original_author (default EmptyString (pull_body pr_handle))) in
  get_pull_handle w merge_commit h = (Val (commit, iid, pr_handle), h1) →
  gh_get_user w h1 author = ApiOk tt →
  repo_get_commits w (Called (GetUser author) true :: h1) author = ApiOk [] →
  cherryPickPr w merge_commit source_branch target_branch_rules strategy
    project_name pr_project_name dry_run h
  = (Raised IndexError, Called (GetCommits author) true :: Called (GetUser author) true :: h1).
Proof.
  intros author Hhandle Huser Hcommits.
  unfold cherryPickPr, extract. unfold bind at 1. unfold bind at 1. rewrite Hhandle.
  fold author. unfold bind at 1, call_api at 1. rewrite Huser.
  unfold bind at 1, call_api at 1. rewrite Hcommits. reflexivity.
Qed.

(** ** The order of the writes *)

Lemma forallb_reverse {A} (P : A → bool) (l : list A) :
  forallb P l = true → forallb P (reverse l) = true.
Proof.
  rewrite !forallb_forall. intros Hl x Hx. apply Hl.
  apply list_elem_of_In in Hx. rewrite elem_of_reverse in Hx. by apply list_elem_of_In.
Qed.

(** X20. The labels of the originating request are written before
    anything else is: in every run of [cherryPickPr] the events, oldest
    first, are reads and log messages up to the call of [set_labels], if
    there is one; every ref, pull request, label, issue and comment comes
    after that call, and none at all when it failed. So a change is marked
    as done or ignored before the first step of publishing. *)
Theorem labels_are_written_before_anything_else `{Re} (w : World)
    (merge_commit source_branch : string) (target_branch_rules : list (string * list string))
    (strategy project_name pr_project_name : string) (dry_run : bool) (h : history) :
  ∃ r before after,
    cherryPickPr w merge_commit source_branch target_branch_rules strategy
      project_name pr_project_name dry_run h = (r, after ++ before ++ h)
    ∧ forallb (reading merge_commit) before = true
    ∧ (after = []
       ∨ ∃ number new_labels ok later,
           reverse after = Called (SetLabels number new_labels) ok :: later
           ∧ (ok = false → later = [])
           ∧ forallb (λ e, negb (is_set_labels e)) later = true).
Proof.
  destruct (plan_emits w merge_commit target_branch_rules h) as (r1 & before & Hplan & Hread).
  rewrite cherryPickPr_plan. unfold bind at 1. rewrite Hplan.
  destruct r1 as [[[cr tb] ex]| |e].
  - unfold write_disposition. destruct dry_run.
    + exists Returned, before, []. split; [done|]. split; [done | by left].
    + unfold bind at 1, call_api at 1.
      destruct (pull_set_labels w (before ++ h) _ _) as [[]|message].
      * match goal with
        | |- context [Called ?c true :: before ++ h] =>
            destruct (after_disposition_emits w merge_commit source_branch strategy
                        project_name pr_project_name cr tb ex
                        (Called c true :: before ++ h)) as (r & evs & Hrun & Hevs);
            exists r, before, (evs ++ [Called c true])
        end.
        split; [by rewrite Hrun, <- (assoc_L (++))|]. split; [done|]. right.
        eexists _, _, true, (reverse evs). split; [by rewrite reverse_app|].
        split; [done|]. by apply forallb_reverse.
      * eexists (Raised _), before, [_]. split; [done|]. split; [done|]. right.
        eexists _, _, false, []. done.
  - exists Returned, before, []. split; [done|]. split; [done | by left].
  - exists (Raised e), before, []. split; [done|]. split; [done | by left].
Qed.

(** ** A dry run of the whole program *)

Section DryRun.
Context `{Re} (w : World).
Variable yaml_safe_load : string → option (option CIConfig).
Variable get_repo : string → api unit.
Variable args : Args.

Lemma reads_or_local_of_reading mc e : reading mc e = true → reads_or_local e = true.
Proof. destruct e as [c ok|]; [|done]. by destruct c. Qed.

Lemma reads_or_local_of_local e : local_only e = true → reads_or_local e = true.
Proof. destruct e as [c ok|]; [|done]. by destruct c. Qed.

Lemma cherryPickPr_dry_run_emits merge_commit source_branch target_branch_rules strategy
    project_name pr_project_name :
  emits reads_or_local
    (cherryPickPr w merge_commit source_branch target_branch_rules strategy
       project_name pr_project_name true).
Proof.
  apply (emits_weaken (reading merge_commit)); [apply reads_or_local_of_reading|].
  apply stops_emits. unfold cherryPickPr.
  apply emits_then_stops.
  { eapply emits_weaken; [apply reading_of_retrieval | apply extract_emits]. }
  intros cr. apply emits_then_stops.
  { eapply emits_weaken; [|apply scan_labels_emits].
    intros e He. by apply reading_of_retrieval, retrieval_of_log. }
  intros [target_branches target_branches_exclude]. apply emits_then_stops.
  { apply listChangedPackages_emits. }
  intros affected_packages. apply emits_then_stops.
  { apply resolve_rules_emits. }
  intros target_branches'. apply emits_then_stops.
  { by apply emits_log. }
  intros _. apply stops_bind.
  unfold write_disposition. by apply post_early_return.
Qed.

Lemma main_dry_run_emits :
  args_dry_run args = true →
  emits reads_or_local (main w yaml_safe_load get_repo args).
Proof.
  intros Hdry. unfold main, sweep_period, no_merge_commits, sweep_loop. rewrite Hdry.
  emits_auto.
  - eapply emits_weaken; [apply reads_or_local_of_local|].
    apply getSweepTargetBranchRules_emits.
  - eapply emits_weaken; [apply reads_or_local_of_local|].
    apply getListOfMergeCommits_emits.
  - apply emits_call_statement, cherryPickPr_dry_run_emits.
Qed.
End DryRun.

(** X21. With [--dry-run], a whole run of [main] writes nothing to the
    forge: every event of the run is a log message, a git command (the
    set-up of the remotes and the fetch are still run), or a call that
    only reads (merge commit, pull request, author, commits, labels,
    changed files). *)
Theorem dry_run_of_main_writes_nothing `{Re} (w : World)
    (yaml_safe_load : string → option (option CIConfig)) (get_repo : string → api unit)
    (args : Args) (h : history) :
  args_dry_run args = true →
  ∃ r evs,
    main w yaml_safe_load get_repo args h = (r, evs ++ h)
    ∧ forallb reads_or_local evs = true.
Proof.
  intros Hdry. by apply main_dry_run_emits.
Qed.

(** ** Examples *)

Lemma retry_stops_at_first_success_witness :
  ∃ status out err earlier,
    executeCommandWithRetry (Sample.world [] [] SampleRun.fetch_fails) "git fetch origin" 3 []
      = (Val (Some (status, out, err)),
         Called (Git "git fetch origin") (status =? 0) :: earlier ++ [])
    ∧ run_git (Sample.world [] [] SampleRun.fetch_fails) (earlier ++ []) "git fetch origin"
      = (status, out, err)
    ∧ earlier = replicate (length earlier) (Called (Git "git fetch origin") false)
    ∧ Z.of_nat (length earlier) < 3
    ∧ (status ≠ 0 → Z.of_nat (length earlier) + 1 = 3).
Proof.
  apply (retry_stops_at_first_success (Sample.world [] [] SampleRun.fetch_fails)
           "git fetch origin" 3 []).
  lia.
Defined.

Lemma no_attempt_leaves_result_unbound_witness :
  executeCommandWithRetry (Sample.world [] [] Sample.nothing_fails) "git fetch origin" 0 []
  = (Val None, []).
Proof.
  apply (no_attempt_leaves_result_unbound (Sample.world [] [] Sample.nothing_fails)
           "git fetch origin" 0 []).
  lia.
Defined.

Lemma rules_are_keyed_by_second_component_witness :
  ∃ r ok logged,
    getSweepTargetBranchRules (Sample.world [] [] Sample.nothing_fails) SampleRun.one_rule
      ("upstream" +:+ "/" +:+ "master" +:+ "/" +:+ "next") []
    = (Val r, logged ++ [Called (Git ("git show " +:+ ("upstream" +:+ "/" +:+ "master" +:+ "/" +:+ "next") +:+ ":Sweep/config.yaml")) ok])
    ∧ r = Some [("^Detector/.*", ["rel-8"])].
Proof.
  destruct (rules_are_keyed_by_second_component (Sample.world [] [] Sample.nothing_fails)
              SampleRun.one_rule "upstream" "master" ("/" +:+ "next") [])
    as (r & ok & logged & Hrun & _ & Hrules).
  - reflexivity.
  - reflexivity.
  - right. by exists "next".
  - exists r, ok, logged. split; [exact Hrun|].
    apply Hrules. split; [done|]. eexists _, _, _, _. split_and!; reflexivity.
Defined.

Lemma uncaught_exception_ends_the_sweep_witness :
  ∃ h2,
    sweep_loop (Sample.world ["bug"] ["a.py"] Sample.nothing_fails) SampleRun.args
      [("*.py", ["rel-8"])] {[ "abc123"; "def456" ]} []
    = (Raised (ReError "*.py"), h2).
Proof.
  eexists.
  apply (uncaught_exception_ends_the_sweep (Sample.world ["bug"] ["a.py"] Sample.nothing_fails)
           SampleRun.args [("*.py", ["rel-8"])] {[ "abc123"; "def456" ]}
           [] ["def456"] "abc123" [] [] _ (Raised (ReError "*.py"))).
  - vm_compute. reflexivity.
  - reflexivity.
  - vm_compute. reflexivity.
Defined.


Lemma rule_order_does_not_matter_witness :
  ∃ tb,
    resolve_rules [("^Detector/.*", ["rel-8"]); ("^Docs/.*", ["rel-7"])]
      {[ "Detector/x.cpp" ]} ∅ [] = (Val tb, [])
    ∧ resolve_rules [("^Docs/.*", ["rel-7"]); ("^Detector/.*", ["rel-8"])]
        {[ "Detector/x.cpp" ]} ∅ [] = (Val tb, []).
Proof.
  apply (rule_order_does_not_matter
           [("^Detector/.*", ["rel-8"]); ("^Docs/.*", ["rel-7"])]
           [("^Docs/.*", ["rel-7"]); ("^Detector/.*", ["rel-8"])]
           {[ "Detector/x.cpp" ]} ∅ []).
  - apply perm_swap.
  - intros rule branches Hin.
    apply elem_of_cons in Hin as [Heq|Hin]; [by simplify_eq|].
    apply list_elem_of_singleton in Hin. by simplify_eq.
Defined.

Lemma every_target_ends_in_one_set_witness :
  ∃ o,
    good_branches o = {[ "rel-8" ]}
    ∧ (∀ t, t ∈ ({[ "rel-8" ]} : gset string) ↔
         t ∈ good_branches o ∨ ∃ c text, (t, c, text) ∈ failed_branches o)
    ∧ (∀ t c text, (t, c, text) ∈ failed_branches o → (t ∉ good_branches o) ∧ c = "abc123").
Proof.
  eexists. split; [|eapply (every_target_ends_in_one_set
                      (Sample.world [] [] Sample.nothing_fails)
                      "abc123" "upstream/master" "merge" "org/proj" "bot/proj"
                      sample_record {[ "rel-8" ]} ∅ [])].
  2: { vm_compute. reflexivity. }
  reflexivity.
Defined.

Lemma invalid_strategy_fails_every_branch_witness :
  ∃ o evs,
    publish_all (Sample.world [] [] Sample.nothing_fails) "abc123" "upstream/master"
      "rebase" "org/proj" "bot/proj" sample_record {[ "rel-8" ]} ∅ [] = (Val o, evs ++ [])
    ∧ forallb makes_ref evs = true
    ∧ good_branches o = ∅
    ∧ ∀ t, t ∈ ({[ "rel-8" ]} : gset string) →
        (∃ text, (t, "abc123", text) ∈ failed_branches o)
        ∧ ∃ ok,
            Called (GetBranch t) ok ∈ evs
            ∧ (ok = true →
               ∃ sha ok',
                 Called (CreateGitRef ("refs/heads/" +:+ cherry_pick_branch "abc123" t)
                           sha) ok' ∈ evs).
Proof.
  apply (invalid_strategy_fails_every_branch (Sample.world [] [] Sample.nothing_fails)
           "abc123" "upstream/master" "rebase" "org/proj" "bot/proj"
           sample_record {[ "rel-8" ]} ∅ []); discriminate.
Defined.

Lemma ref_names_do_not_collide_witness :
  cherry_pick_branch "abc123" "rel-8" ≠ cherry_pick_branch "abc123" "rel-7".
Proof.
  apply (ref_names_do_not_collide "abc123" "abc123" "rel-8" "rel-7");
    [reflexivity | reflexivity | discriminate].
Defined.

Lemma change_without_target_is_only_labelled_witness :
  ∃ cr h1 r ok,
    cherryPickPr (Sample.world ["bug"] ["Docs/a.md"] Sample.nothing_fails)
      "abc123" "upstream/master" [("^Detector/.*", ["rel-8"])] "cherry-pick"
      "org/proj" "bot/proj" false []
    = (r, Called (SetLabels (PR_IID cr) (labels cr ∪ {["sweep:ignore"]})) ok :: h1)
    ∧ (ok = true → r = Val tt).
Proof.
  eexists _, _.
  eapply (change_without_target_is_only_labelled
            (Sample.world ["bug"] ["Docs/a.md"] Sample.nothing_fails)
            "abc123" "upstream/master" [("^Detector/.*", ["rel-8"])] "cherry-pick"
            "org/proj" "bot/proj" []).
  vm_compute. reflexivity.
Defined.


Lemma swept_title_gives_back_the_title_witness :
  Extract.canonical_title (new_pr_title sample_record "rel-8") = "Fix X".
Proof.
  apply (swept_title_gives_back_the_title sample_record "rel-8"); reflexivity.
Defined.

Lemma labels_give_targets_and_exclusions_witness :
  ∃ (tb : gset string) (ex : gset bytes),
    (∀ b, b ∈ tb ↔
       ("alsoTargeting:" +:+ b) ∈ ({[ "alsoTargeting:rel-8"; "sweep:from rel-7" ]} : gset string)
       ∧ no_colon b = true)
    ∧ (∀ x, x ∈ ex ↔
         ∃ name,
           ("sweep:from " +:+ name)
             ∈ ({[ "alsoTargeting:rel-8"; "sweep:from rel-7" ]} : gset string)
           ∧ no_space name = true ∧ x = encode_ascii_replace name)
    ∧ ¬ marked_swept {[ "alsoTargeting:rel-8"; "sweep:from rel-7" ]}.
Proof.
  eexists _, _.
  eapply (labels_give_targets_and_exclusions
            {[ "alsoTargeting:rel-8"; "sweep:from rel-7" ]} []).
  vm_compute. reflexivity.
Defined.

Lemma swept_body_names_the_original_author_witness :
  Extract.search_original_author (body_text sample_record "rel-8") = Some "alice".
Proof.
  apply (swept_body_names_the_original_author sample_record "rel-8"); reflexivity.
Defined.

Lemma author_without_commits_is_not_caught_witness :
  ∃ h2,
    cherryPickPr (without_commits (Sample.world [] [] Sample.nothing_fails))
      "abc123" "upstream/master" [] "cherry-pick" "org/proj" "bot/proj" false []
    = (Raised IndexError, h2).
Proof.
  eexists.
  eapply (author_without_commits_is_not_caught
            (without_commits (Sample.world [] [] Sample.nothing_fails))
            "abc123" "upstream/master" [] "cherry-pick" "org/proj" "bot/proj" false []).
  - vm_compute. reflexivity.
  - reflexivity.
  - reflexivity.
Defined.

Lemma dry_run_of_main_writes_nothing_witness :
  ∃ r evs,
    main (Sample.world ["bug"] ["Detector/x.cpp"] Sample.nothing_fails) SampleRun.one_rule
      SampleRun.found SampleRun.dry_args [] = (r, evs ++ [])
    ∧ forallb reads_or_local evs = true.
Proof.
  apply (dry_run_of_main_writes_nothing
           (Sample.world ["bug"] ["Detector/x.cpp"] Sample.nothing_fails) SampleRun.one_rule
           SampleRun.found SampleRun.dry_args []).
  reflexivity.
Defined.
